(** * Grid scanner of [docs/lebanese deal/analyze_cards.py]

    A shallow embedding of [find_card_rows] and of the driver loop that
    follows it, together with the properties of the background-run scan.

    - numpy's [arr] of shape [(h, w, 4)] is a list of [h] rows of [w]
      pixels; indexing outside the array raises [IndexError];
    - [matches / w] is numpy's true division on binary64 and [ws > 0.80]
      a binary64 comparison: both are taken from the IEEE 754
      specification of the standard library ([SpecFloat]);
    - [print] appends to the standard output kept in the world state, and
      [Image.open] reads the files of that state. *)

From Stdlib Require Import ZArith Lia Ascii String Floats.SpecFloat.
From stdpp Require Import base list gmap strings sorting.

Local Open Scope Z_scope.

(** ** Binary64 arithmetic, as Python's [float] and numpy's [float64] *)

Module Binary64.

Definition prec : Z := 53.
Definition emax : Z := 1024.

(** [float(n)] for an integer [n]: rounded to nearest, ties to even. *)
Definition of_int (n : Z) : spec_float := binary_normalize prec emax n 0 false.

(** [a / b] on floats, with numpy's results for a zero divisor
    ([inf], [nan]) rather than an exception. *)
Definition truediv (a b : spec_float) : spec_float := SFdiv prec emax a b.

(** [a > b]. *)
Definition gt (a b : spec_float) : bool := SFltb b a.

(** The literal [0.80]: the double nearest to 4/5, 0x1.999999999999ap-1. *)
Definition lit_0_80 : spec_float := S754_finite false 7205759403792794 (-53).

Definition one : spec_float := S754_finite false 4503599627370496 (-52).
Definition zero : spec_float := S754_zero false.

(** The significand of [lit_0_80]. *)
Definition D80 : Z := 7205759403792794.

(** The significand of an integer below 2^53, scaled to 53 bits. *)
Definition mant (n : Z) : Z := n * 2 ^ (53 - Zdigits2 n).

End Binary64.

(** ** Exceptions *)

Inductive exn := FileNotFoundError | IndexError.

Inductive result (A : Type) :=
  | Ok (a : A)
  | Raise (e : exn).
Arguments Ok {A} a.
Arguments Raise {A} e.

#[global] Instance result_ret : MRet result := λ A a, Ok a.
#[global] Instance result_bind : MBind result := λ A B f m,
  match m with
  | Ok a => f a
  | Raise e => Raise e
  end.

(** [l[i]] for an index [i >= 0]. *)
Definition getitem {A} (l : list A) (i : nat) : result A :=
  match l !! i with
  | Some a => Ok a
  | None => Raise IndexError
  end.

(** A comprehension whose body can raise: the first exception wins. *)
Fixpoint traverse {A B} (f : A → result B) (l : list A) : result (list B) :=
  match l with
  | [] => Ok []
  | a :: l' => b ← f a; bs ← traverse f l'; Ok (b :: bs)
  end.

(** ** Pixels and images *)

(** One RGBA pixel, each channel a uint8. *)
Record RGBA := { red : Z; green : Z; blue : Z; alpha : Z }.

Definition RGB : Type := Z * Z * Z.

(** [p[:3]] *)
Definition rgb (p : RGBA) : RGB := (red p, green p, blue p).

(** [np.all(c == bg)] on one pixel: every channel is equal. *)
Definition all_eq (c bg : RGB) : bool :=
  let '(r, g, b) := c in
  let '(r', g', b') := bg in
  (r =? r') && (g =? g') && (b =? b').

(** The decoded image: [img.size] is [(width, height)] and
    [np.array(img)] has shape [(height, width, 4)]. *)
Record Image := { width : nat; height : nat; arr : list (list RGBA) }.

Definition well_shaped (img : Image) : Prop :=
  length (arr img) = height img ∧
  Forall (λ row, length row = width img) (arr img).

(** PIL keeps the size of an image in C ints. *)
Definition pil_size (img : Image) : Prop :=
  Z.of_nat (width img) < 2 ^ 31 ∧ Z.of_nat (height img) < 2 ^ 31.

(** ** The scan of [find_card_rows] *)

(** [np.all(line == bg_color, axis=1).sum()] *)
Definition count_matches (bg : RGB) (line : list RGB) : nat :=
  sum_list ((λ c, if all_eq c bg then 1%nat else 0%nat) <$> line).

(** [matches / n], [matches] a numpy int64 and [n] a Python int. *)
Definition whiteness (matches n : nat) : spec_float :=
  Binary64.truediv (Binary64.of_int (Z.of_nat matches)) (Binary64.of_int (Z.of_nat n)).

(** [ws > 0.80] *)
Definition is_bg (ws : spec_float) : bool := Binary64.gt ws Binary64.lit_0_80.

(** [arr[0, 0, :3]] *)
Definition sample_bg (a : list (list RGBA)) : result RGB :=
  row ← getitem a 0; p ← getitem row 0; Ok (rgb p).

(** [arr[y, :, :3]] *)
Definition row_of (a : list (list RGBA)) (y : nat) : result (list RGB) :=
  row ← getitem a y; Ok (rgb <$> (row : list RGBA)).

(** [arr[:, x, :3]] *)
Definition col_of (a : list (list RGBA)) (x : nat) : result (list RGB) :=
  traverse (λ row, p ← getitem row x; Ok (rgb p)) a.

(** The first loop: [row_whiteness]. *)
Definition row_profile (a : list (list RGBA)) (bg : RGB) (w h : nat)
  : result (list spec_float) :=
  traverse (λ y, row ← row_of a y; Ok (whiteness (count_matches bg row) w)) (seq 0 h).

(** The third loop: [col_whiteness]. *)
Definition col_profile (a : list (list RGBA)) (bg : RGB) (w h : nat)
  : result (list spec_float) :=
  traverse (λ x, col ← col_of a x; Ok (whiteness (count_matches bg col) h)) (seq 0 w).

(** [enumerate(l)] *)
Definition enumerate {A} (l : list A) : list (nat * A) := imap pair l.

(** The variables of the row scan. *)
Record RowScan := {
  card_row_starts : list nat;
  card_row_ends : list nat;
  prev_is_bg : bool
}.

Definition row_scan_init : RowScan :=
  {| card_row_starts := []; card_row_ends := []; prev_is_bg := true |}.

(** One iteration of [for y, ws in enumerate(row_whiteness)]. *)
Definition row_scan_step (st : RowScan) (yw : nat * spec_float) : RowScan :=
  let '(y, ws) := yw in
  let bg := is_bg ws in
  let starts :=
    if prev_is_bg st && negb bg then card_row_starts st ++ [y] else card_row_starts st in
  let ends :=
    if negb (prev_is_bg st) && bg then card_row_ends st ++ [y] else card_row_ends st in
  {| card_row_starts := starts; card_row_ends := ends; prev_is_bg := bg |}.

Definition row_scan (row_whiteness : list spec_float) : RowScan :=
  foldl row_scan_step row_scan_init (enumerate row_whiteness).

(** The variables of the column scan: starts only. *)
Record ColScan := { col_starts : list nat; prev_bg : bool }.

Definition col_scan_init : ColScan := {| col_starts := []; prev_bg := true |}.

(** One iteration of [for x, cs in enumerate(col_whiteness)]. *)
Definition col_scan_step (st : ColScan) (xc : nat * spec_float) : ColScan :=
  let '(x, cs) := xc in
  let bg := is_bg cs in
  let starts := if prev_bg st && negb bg then col_starts st ++ [x] else col_starts st in
  {| col_starts := starts; prev_bg := bg |}.

Definition col_scan (col_whiteness : list spec_float) : ColScan :=
  foldl col_scan_step col_scan_init (enumerate col_whiteness).

(** The local variables of [find_card_rows] when the scans are done. *)
Record Locals := {
  bg_color : RGB;
  row_whiteness : list spec_float;
  rows : RowScan;
  col_whiteness : list spec_float;
  cols : ColScan
}.

Definition scan_image (img : Image) : result Locals :=
  let a := arr img in
  let w := width img in
  let h := height img in
  bg ← sample_bg a;
  rw ← row_profile a bg w h;
  cw ← col_profile a bg w h;
  Ok {| bg_color := bg;
        row_whiteness := rw; rows := row_scan rw;
        col_whiteness := cw; cols := col_scan cw |}.

(** ** The report *)

(** The lines written to standard output, before formatting. *)
Inductive line :=
  | Header (name : string)
  | ImageInfo (w h : nat) (bg : RGB)
  | CardRows (n : nat)
  | RowSpan (i s e : nat) (h : Z)
  | RowUnclosed (i s h : nat)
  | CardColumns (n : nat) (first : list nat)
  | EstimatedTotal (name : string) (rows cols total : nat).

(** [str.upper] on ASCII text: the letters a to z go to A to Z, and every
    other character below 128 stays; characters from 128 on are not
    modelled (Python maps some of them). *)
Definition upper_ascii (c : ascii) : ascii :=
  let n := nat_of_ascii c in
  if (97 <=? n)%nat && (n <=? 122)%nat then ascii_of_nat (n - 32) else c.

Fixpoint upper (s : string) : string :=
  match s with
  | EmptyString => EmptyString
  | String c s' => String (upper_ascii c) (upper s')
  end.

(** The lines of the loop over
    [enumerate(zip(card_row_starts, card_row_ends[:len(card_row_starts)]))]. *)
Definition span_lines (starts ends : list nat) : list line :=
  imap (λ i se, RowSpan (i + 1) se.1 se.2 (Z.of_nat se.2 - Z.of_nat se.1))
       (zip starts (take (length starts) ends)).

(** The branch [if len(card_row_ends) < len(card_row_starts)]; in it
    [card_row_starts[-1]] is read. *)
Definition unclosed_lines (starts ends : list nat) (h : nat) : result (list line) :=
  if (length ends <? length starts)%nat then
    s ← getitem starts (length starts - 1);
    Ok [RowUnclosed (length starts) s h]
  else Ok [].

Definition report (name : string) (w h : nat) (l : Locals) : result (list line) :=
  let starts := card_row_starts (rows l) in
  let ends := card_row_ends (rows l) in
  u ← unclosed_lines starts ends h;
  Ok ([Header (upper name); ImageInfo w h (bg_color l); CardRows (length starts)]
        ++ span_lines starts ends
        ++ u
        ++ [CardColumns (length (col_starts (cols l))) (take 10 (col_starts (cols l)))]).

(** ** The world: image files and standard output *)

Record World := { files : gmap string Image; stdout : list line }.

Definition print (ls : list line) (σ : World) : World :=
  {| files := files σ; stdout := stdout σ ++ ls |}.

(** [Image.open(path).convert("RGBA")] *)
Definition image_open (path : string) (σ : World) : result Image :=
  match files σ !! path with
  | Some img => Ok img
  | None => Raise FileNotFoundError
  end.

(** The local variables of a call when it reaches its [return]. *)
Definition locals_at_return (path : string) (σ : World) : result Locals :=
  img ← image_open path σ; scan_image img.

(** What a call prints: nothing before the scans are done, and the report
    is cut where [card_row_starts[-1]] raises. *)
Definition find_card_rows (path name : string) (σ : World) : World * result (nat * nat) :=
  match image_open path σ with
  | Raise e => (σ, Raise e)
  | Ok img =>
      match scan_image img with
      | Raise e => (σ, Raise e)
      | Ok l =>
          match report name (width img) (height img) l with
          | Raise e =>
              (print ([Header (upper name); ImageInfo (width img) (height img) (bg_color l);
                       CardRows (length (card_row_starts (rows l)))]
                        ++ span_lines (card_row_starts (rows l)) (card_row_ends (rows l))) σ,
               Raise e)
          | Ok ls =>
              (print ls σ,
               Ok (length (card_row_starts (rows l)), length (col_starts (cols l))))
          end
      end
  end.

(** ** The driver loop *)

Definition categories : list string := ["action"; "money"; "property"; "wild"].

(** [f"/tmp/{name}_cards.png"] *)
Definition card_path (name : string) : string := "/tmp/" +:+ name +:+ "_cards.png".

(** [for name in names: ...], with [totals] and the world threaded; an
    exception ends the run. *)
Fixpoint driver_loop (names : list string) (totals : gmap string nat) (σ : World)
  : World * result (gmap string nat) :=
  match names with
  | [] => (σ, Ok totals)
  | name :: names' =>
      match find_card_rows (card_path name) name σ with
      | (σ', Raise e) => (σ', Raise e)
      | (σ', Ok (r, c)) =>
          driver_loop names' (<[name := (r * c)%nat]> totals)
                      (print [EstimatedTotal name r c (r * c)%nat] σ')
      end
  end.

Definition driver (σ : World) : World * result (gmap string nat) :=
  driver_loop categories ∅ σ.

(** ** The vocabulary of the specification *)

(** The pixel at row [y] and column [x], when the image has one. *)
Definition pixel (img : Image) (y x : nat) : option RGBA :=
  arr img !! y ≫= λ row, row !! x.

(** A pixel matches the sample when its three colour channels are the
    sample's, each exactly; alpha is not looked at. *)
Definition matches_bg (bg : RGB) (p : RGBA) : Prop :=
  red p = bg.1.1 ∧ green p = bg.1.2 ∧ blue p = bg.2.

#[global] Instance matches_bg_dec bg p : Decision (matches_bg bg p).
Proof. unfold matches_bg. apply _. Defined.

(** There is a pixel, and it matches. *)
Definition holds_match (bg : RGB) (o : option RGBA) : Prop :=
  match o with
  | Some p => matches_bg bg p
  | None => False
  end.

#[global] Instance holds_match_dec bg o : Decision (holds_match bg o).
Proof. destruct o; apply _. Defined.

(** The position [(y, x)] holds a pixel that matches. *)
Definition matching (img : Image) (bg : RGB) (y x : nat) : Prop :=
  holds_match bg (pixel img y x).

#[global] Instance matching_dec img bg y x : Decision (matching img bg y x).
Proof. unfold matching. apply _. Defined.

(** The number of matching pixels of row [y], and of column [x]. *)
Definition matching_in_row (img : Image) (bg : RGB) (y : nat) : nat :=
  length (filter (λ x, matching img bg y x) (seq 0 (width img))).

Definition matching_in_col (img : Image) (bg : RGB) (x : nat) : nat :=
  length (filter (λ y, matching img bg y x) (seq 0 (height img))).

(** The two profiles of the specification: per row and per column, the
    fraction of matching pixels. *)
Definition row_fractions (img : Image) (bg : RGB) : list spec_float :=
  (λ y, whiteness (matching_in_row img bg y) (width img)) <$> seq 0 (height img).

Definition col_fractions (img : Image) (bg : RGB) : list spec_float :=
  (λ x, whiteness (matching_in_col img bg x) (height img)) <$> seq 0 (width img).

(** The state of a scan when it reaches position [y] of a profile:
    background at the start, the class of position [y - 1] after it. *)
Definition state_before (ws : list spec_float) (y : nat) : bool :=
  match y with
  | O => true
  | S y' => from_option is_bg true (ws !! y')
  end.

(** Position [y] is a transition from background to foreground. *)
Definition enters_fg (ws : list spec_float) (y : nat) : Prop :=
  state_before ws y = true ∧ is_bg <$> ws !! y = Some false.

(** Position [y] is a transition from foreground to background. *)
Definition leaves_fg (ws : list spec_float) (y : nat) : Prop :=
  state_before ws y = false ∧ is_bg <$> ws !! y = Some true.

#[global] Instance enters_fg_dec ws y : Decision (enters_fg ws y).
Proof. unfold enters_fg. apply _. Defined.

#[global] Instance leaves_fg_dec ws y : Decision (leaves_fg ws y).
Proof. unfold leaves_fg. apply _. Defined.

(** Starts and ends alternate, a start first: the i-th start is before
    the i-th end, which is before the next start. *)
Definition alternate (starts ends : list nat) : Prop :=
  (∀ i s e, starts !! i = Some s → ends !! i = Some e → (s < e)%nat) ∧
  (∀ i e s, ends !! i = Some e → starts !! S i = Some s → (e < s)%nat).

(** The invariant of the row scan once [n] positions are read. *)
Record row_inv (n : nat) (st : RowScan) : Prop := {
  inv_starts_lt : Forall (λ y, (y < n)%nat) (card_row_starts st);
  inv_ends_lt : Forall (λ y, (y < n)%nat) (card_row_ends st);
  inv_balance :
    length (card_row_starts st) =
    (length (card_row_ends st) + (if prev_is_bg st then 0 else 1))%nat;
  inv_alternate : alternate (card_row_starts st) (card_row_ends st);
  inv_starts_sorted : StronglySorted lt (card_row_starts st);
  inv_ends_sorted : StronglySorted lt (card_row_ends st)
}.

(** The variables of the row scan after [k] iterations of its loop. *)
Definition row_scan_at (row_whiteness : list spec_float) (k : nat) : RowScan :=
  foldl row_scan_step row_scan_init (take k (enumerate row_whiteness)).

(** What a call added to standard output. *)
Definition printed (before after : World) : list line :=
  drop (length (stdout before)) (stdout after).


(** ** Sample sheets *)

Definition white : RGBA := {| red := 255; green := 255; blue := 255; alpha := 255 |}.
Definition black : RGBA := {| red := 0; green := 0; blue := 0; alpha := 255 |}.
Definition clear : RGBA := {| red := 255; green := 255; blue := 255; alpha := 0 |}.

(** Two card rows, the second one running into the lower edge. *)
Definition sheet : Image :=
  {| width := 3; height := 5;
     arr := [[white; white; white]; [white; black; white]; [white; black; white];
             [white; white; white]; [black; black; black]] |}.

Definition sheet_locals : Locals :=
  let bg : RGB := (255, 255, 255) in
  {| bg_color := bg;
     row_whiteness := row_fractions sheet bg; rows := row_scan (row_fractions sheet bg);
     col_whiteness := col_fractions sheet bg; cols := col_scan (col_fractions sheet bg) |}.

Definition one_pixel : Image := {| width := 1; height := 1; arr := [[white]] |}.

(** Only the corner has the colour of the corner. *)
Definition corner_only : Image :=
  {| width := 2; height := 2; arr := [[white; black]; [black; black]] |}.

(** One colour everywhere, alpha apart. *)
Definition plain : Image :=
  {| width := 2; height := 2; arr := [[white; clear]; [clear; white]] |}.

(** Two rows of no pixels. *)
Definition no_columns : Image := {| width := 0; height := 2; arr := [[]; []] |}.

Definition sample_world : World :=
  {| files := {[ "/tmp/action_cards.png" := sheet; "/tmp/money_cards.png" := one_pixel;
                 "/tmp/property_cards.png" := plain; "/tmp/wild_cards.png" := corner_only ]};
     stdout := [] |}.

(** The same sheet for [action] among other files, after some output. *)
Definition other_world : World :=
  {| files := {[ "/tmp/action_cards.png" := sheet; "/tmp/empty.png" := no_columns ]};
     stdout := [CardRows 7] |}.

(** ** More vocabulary and sheets *)

(** The string is ASCII: each of its characters is below 128. *)
Definition ascii_only (s : string) : Prop :=
  Forall (λ c, (nat_of_ascii c < 128)%nat) (list_ascii_of_string s).

#[global] Instance ascii_only_dec s : Decision (ascii_only s).
Proof. unfold ascii_only. apply _. Defined.

(** Row [y] lies in the i-th detected run: at or after its start and,
    when the run was closed, before its end. *)
Definition in_run (starts ends : list nat) (y : nat) : Prop :=
  ∃ i s, starts !! i = Some s ∧ (s ≤ y)%nat ∧ ∀ e, ends !! i = Some e → (y < e)%nat.

(** [0.0 <= x <= 1.0]; false of NaN. *)
Definition in_unit_interval (x : spec_float) : Prop :=
  SFleb Binary64.zero x = true ∧ SFleb x Binary64.one = true.

Definition plain_opaque : Image :=
  {| width := 2; height := 2; arr := [[white; white]; [white; white]] |}.

(** [corner_only] in negative. *)
Definition corner_only_negative : Image :=
  {| width := 2; height := 2; arr := [[black; white]; [white; white]] |}.

Definition negative (c : RGB) : RGB := (255 - c.1.1, 255 - c.1.2, 255 - c.2)%Z.

(** [sheet] with rows and columns exchanged. *)
Definition sheet_transposed : Image :=
  {| width := 5; height := 3;
     arr := [[white; white; white; white; black]; [white; black; black; white; black];
             [white; white; white; white; black]] |}.

Definition pairs_world : World :=
  {| files := {[ "/tmp/sheet.png" := sheet; "/tmp/sheet_t.png" := sheet_transposed;
                 "/tmp/corner.png" := corner_only; "/tmp/corner_n.png" := corner_only_negative ]};
     stdout := [] |}.

(** * Properties *)

(** ** Binary64: rounding a quotient of two integers against 0.80 *)

Module Binary64Facts.
Import Binary64.

Local Abbreviation bra := (binary_round_aux prec emax).

Lemma Zdigits2_bounds p :
  2 ^ (Z.pos (digits2_pos p) - 1) ≤ Z.pos p < 2 ^ Z.pos (digits2_pos p).
Proof.
  induction p as [p IH|p IH|]; cbn [digits2_pos].
  - rewrite Pos2Z.inj_succ.
    replace (Z.succ (Z.pos (digits2_pos p)) - 1)
      with (Z.succ (Z.pos (digits2_pos p) - 1)) by lia.
    rewrite !Z.pow_succ_r by lia. lia.
  - rewrite Pos2Z.inj_succ.
    replace (Z.succ (Z.pos (digits2_pos p)) - 1)
      with (Z.succ (Z.pos (digits2_pos p) - 1)) by lia.
    rewrite !Z.pow_succ_r by lia. lia.
  - simpl. lia.
Qed.

Lemma Zdigits2_unique p d :
  2 ^ (d - 1) ≤ Z.pos p < 2 ^ d → Z.pos (digits2_pos p) = d.
Proof.
  intros [Hlo Hhi]. pose proof (Zdigits2_bounds p) as [Blo Bhi].
  destruct (Z_lt_le_dec d 1) as [Hd|Hd].
  { assert (2 ^ d ≤ 2 ^ 0).
    { destruct (Z_lt_le_dec d 0);
        [rewrite Z.pow_neg_r by lia; simpl; lia | apply Z.pow_le_mono_r; lia]. }
    simpl in *. lia. }
  destruct (Z.lt_trichotomy (Z.pos (digits2_pos p)) d) as [Hc|[Hc|Hc]]; [|done|].
  - assert (2 ^ Z.pos (digits2_pos p) ≤ 2 ^ (d - 1)) by (apply Z.pow_le_mono_r; lia). lia.
  - assert (2 ^ d ≤ 2 ^ (Z.pos (digits2_pos p) - 1)) by (apply Z.pow_le_mono_r; lia). lia.
Qed.

Lemma Zdigits2_of_bounds q d : 2 ^ (d - 1) ≤ q < 2 ^ d → 1 ≤ d → Zdigits2 q = d.
Proof.
  intros Hq Hd. assert (0 < 2 ^ (d - 1)) by (apply Z.pow_pos_nonneg; lia).
  destruct q as [|p|p]; try lia. simpl. by apply Zdigits2_unique.
Qed.

Lemma Zdigits2_range n :
  0 < n < 2 ^ 53 →
  1 ≤ Zdigits2 n ≤ 53 ∧ 2 ^ (Zdigits2 n - 1) ≤ n < 2 ^ Zdigits2 n.
Proof.
  intros Hn. destruct n as [|p|p]; try lia. cbn [Zdigits2].
  pose proof (Zdigits2_bounds p) as Hb. split; [|done].
  split; [lia|].
  destruct (Z_lt_le_dec 53 (Z.pos (digits2_pos p))) as [Hc|]; [|lia].
  assert (2 ^ 53 ≤ 2 ^ (Z.pos (digits2_pos p) - 1)) by (apply Z.pow_le_mono_r; lia). lia.
Qed.

Lemma fexp_eq x : -1074 ≤ x - 53 → fexp prec emax x = x - 53.
Proof. unfold fexp, emin, prec, emax. lia. Qed.

Lemma loc_of_shr_record_of_loc m l : loc_of_shr_record (shr_record_of_loc m l) = l.
Proof. by destruct l as [|[]]. Qed.

Lemma shr_m_of_loc m l : shr_m (shr_record_of_loc m l) = m.
Proof. by destruct l as [|[]]. Qed.

Lemma shr_fexp_keep q e l :
  2 ^ 52 ≤ q < 2 ^ 53 → -1074 ≤ e →
  shr_fexp prec emax q e l = (shr_record_of_loc q l, e).
Proof.
  intros Hq He. unfold shr_fexp.
  rewrite (Zdigits2_of_bounds q 53) by (simpl; lia).
  rewrite fexp_eq by lia.
  replace (53 + e - 53 - e) with 0 by lia. done.
Qed.

Lemma shr_fexp_halve q e l :
  2 ^ 53 ≤ q < 2 ^ 54 → -1075 ≤ e →
  shr_fexp prec emax q e l = (shr_1 (shr_record_of_loc q l), e + 1).
Proof.
  intros Hq He. unfold shr_fexp.
  rewrite (Zdigits2_of_bounds q 54) by (simpl; lia).
  rewrite fexp_eq by lia.
  replace (54 + e - 53 - e) with 1 by lia. done.
Qed.

Lemma round_nearest_even_bounds q l :
  q ≤ round_nearest_even q l ≤ q + 1.
Proof. destruct l as [|[]]; simpl; try lia. destruct (Z.even q); lia. Qed.

Lemma div2_bounds q : 2 ^ 53 ≤ q < 2 ^ 54 → 2 ^ 52 ≤ Z.div2 q < 2 ^ 53.
Proof.
  intros Hq. rewrite Z.div2_div.
  split; [apply Z.div_le_lower_bound; lia | apply Z.div_lt_upper_bound; lia].
Qed.

(** Rounding a 53-bit significand: only a carry into bit 54 renormalises. *)
Lemma bra_keep q e l :
  2 ^ 52 ≤ q < 2 ^ 53 → -1074 ≤ e ≤ 970 →
  bra false q e l =
    if round_nearest_even q l =? 2 ^ 53
    then S754_finite false (2 ^ 52) (e + 1)
    else S754_finite false (Z.to_pos (round_nearest_even q l)) e.
Proof.
  intros Hq He. unfold binary_round_aux.
  rewrite shr_fexp_keep by lia.
  rewrite loc_of_shr_record_of_loc, shr_m_of_loc.
  pose proof (round_nearest_even_bounds q l) as Hr.
  destruct (Z.eqb_spec (round_nearest_even q l) (2 ^ 53)) as [->|Hne].
  - rewrite shr_fexp_halve by lia.
    change (shr_m (shr_1 (shr_record_of_loc (2 ^ 53) loc_Exact))) with (Z.pos (2 ^ 52)).
    cbv iota beta.
    destruct (Z.leb_spec (e + 1) (emax - prec)) as [_|Hbad];
      [done|unfold emax, prec in Hbad; lia].
  - rewrite shr_fexp_keep by lia.
    rewrite shr_m_of_loc.
    destruct (round_nearest_even q l) as [|p|p] eqn:E; try lia.
    destruct (Z.leb_spec e (emax - prec)) as [_|Hbad];
      [done|unfold emax, prec in Hbad; lia].
Qed.

(** Rounding a 54-bit quotient: the low bit goes into the location. *)
Lemma bra_halve q e l :
  2 ^ 53 ≤ q < 2 ^ 54 → -1075 ≤ e ≤ 969 →
  bra false q e l =
    bra false (Z.div2 q) (e + 1)
        (loc_of_shr_record (shr_1 (shr_record_of_loc q l))).
Proof.
  intros Hq He.
  assert (Hm : shr_m (shr_1 (shr_record_of_loc q l)) = Z.div2 q).
  { destruct q as [|p|p]; try lia. destruct l as [|[]], p; try done; simpl in Hq; lia. }
  pose proof (div2_bounds q Hq) as Hq2.
  unfold binary_round_aux at 1.
  rewrite shr_fexp_halve by lia. rewrite Hm.
  unfold binary_round_aux.
  rewrite (shr_fexp_keep (Z.div2 q)) by lia.
  by rewrite loc_of_shr_record_of_loc, shr_m_of_loc.
Qed.

Lemma new_location_spec nb k :
  0 ≤ k < nb →
  new_location nb k = if k =? 0 then loc_Exact else loc_Inexact (2 * k ?= nb).
Proof.
  intros Hk. unfold new_location, new_location_even, new_location_odd.
  destruct (Z.even nb) eqn:Hev; [done|].
  destruct (k =? 0); [done|]. f_equal.
  assert (Hodd : Z.odd nb = true) by (rewrite <- Z.negb_even, Hev; done).
  apply Z.odd_spec in Hodd as [j ->].
  destruct (Z.compare_spec (2 * k + 1) (2 * j + 1)),
    (Z.compare_spec (2 * k) (2 * j + 1)); lia || done.
Qed.

Local Ltac ltb_cases :=
  repeat match goal with
    | |- context [?a <? ?b] => destruct (Z.ltb_spec a b)
    end.

Section Threshold.
(** The significand of the threshold is even: a tie rounds down to it. *)
Variable D : Z.
Hypothesis D_even : Z.even D = true.

Lemma round_keep_above q r M2 :
  0 < M2 → 0 ≤ r < M2 → 0 ≤ q →
  (D <? round_nearest_even q (new_location M2 r)) =
  ((2 * D + 1) * M2 <? 2 * (M2 * q + r)).
Proof.
  intros HM Hr Hq. rewrite new_location_spec by done.
  set (l := if r =? 0 then loc_Exact else loc_Inexact (2 * r ?= M2)).
  pose proof (round_nearest_even_bounds q l) as Hb.
  assert (q ≤ D - 1 ∨ q = D ∨ D + 1 ≤ q) as [Hc|[->|Hc]] by lia.
  - assert (M2 * q ≤ M2 * (D - 1)) by nia. ltb_cases; lia.
  - clear Hb. subst l. destruct (Z.eqb_spec r 0) as [->|Hr0]; simpl.
    + ltb_cases; lia.
    + destruct (Z.compare_spec (2 * r) M2); simpl; rewrite ?D_even; ltb_cases; lia.
  - assert (M2 * (D + 1) ≤ M2 * q) by nia. ltb_cases; lia.
Qed.

Lemma round_halve_above q r M2 :
  0 < M2 → 0 ≤ r < M2 → 0 < q →
  (D <? round_nearest_even (Z.div2 q)
          (loc_of_shr_record (shr_1 (shr_record_of_loc q (new_location M2 r))))) =
  ((2 * D + 1) * M2 <? M2 * q + r).
Proof.
  intros HM Hr Hq. rewrite new_location_spec by done.
  set (l := if r =? 0 then loc_Exact else loc_Inexact (2 * r ?= M2)).
  assert (Hl : loc_of_shr_record (shr_1 (shr_record_of_loc q l)) =
               if Z.odd q then (if r =? 0 then loc_Inexact Eq else loc_Inexact Gt)
               else (if r =? 0 then loc_Exact else loc_Inexact Lt)).
  { subst l. destruct q as [|p|p]; try lia.
    destruct (r =? 0); [by destruct p|].
    by destruct (2 * r ?= M2), p. }
  rewrite Hl. clear Hl l.
  set (l := if Z.odd q then _ else _).
  pose proof (round_nearest_even_bounds (Z.div2 q) l) as Hb.
  pose proof (Z.div2_odd q) as Hdiv. set (Q := Z.div2 q) in *.
  assert (Q ≤ D - 1 ∨ Q = D ∨ D + 1 ≤ Q) as [Hc|[HQ|Hc]] by lia.
  - assert (M2 * q ≤ M2 * (2 * D - 1)) by (destruct (Z.odd q); simpl in Hdiv; nia).
    ltb_cases; lia.
  - clear Hb. subst l. rewrite HQ in *.
    destruct (Z.odd q); simpl in Hdiv; subst q;
      destruct (Z.eqb_spec r 0) as [->|Hr0]; simpl; rewrite ?D_even;
      ltb_cases; lia.
  - assert (M2 * (2 * D + 2) ≤ M2 * q) by (destruct (Z.odd q); simpl in Hdiv; nia).
    ltb_cases; lia.
Qed.
End Threshold.

Lemma iter_xO_pow p k : Z.pos (Pos.iter xO p k) = Z.pos p * 2 ^ Z.pos k.
Proof.
  induction k as [|k IH] using Pos.peano_ind.
  - simpl. lia.
  - rewrite Pos.iter_succ, Pos2Z.inj_xO, IH, Pos2Z.inj_succ, Z.pow_succ_r by lia. lia.
Qed.

Lemma mant_bounds n : 0 < n < 2 ^ 53 → 2 ^ 52 ≤ mant n < 2 ^ 53.
Proof.
  intros Hn. destruct (Zdigits2_range n Hn) as [Hd Hb]. unfold mant.
  set (d := Zdigits2 n) in *.
  assert (Hp : 0 < 2 ^ (53 - d)) by (apply Z.pow_pos_nonneg; lia).
  assert (E1 : 2 ^ (d - 1) * 2 ^ (53 - d) = 2 ^ 52)
    by (rewrite <- Z.pow_add_r by lia; f_equal; lia).
  assert (E2 : 2 ^ d * 2 ^ (53 - d) = 2 ^ 53)
    by (rewrite <- Z.pow_add_r by lia; f_equal; lia).
  nia.
Qed.

(** [float(n)] is exact below 2^53. *)
Lemma of_int_pos n :
  0 < n < 2 ^ 53 →
  of_int n = S754_finite false (Z.to_pos (mant n)) (Zdigits2 n - 53).
Proof.
  intros Hn. pose proof (mant_bounds n Hn) as Hm.
  destruct (Zdigits2_range n Hn) as [Hd _]. unfold mant in *.
  destruct n as [|p|p]; try lia. cbn [Zdigits2] in *.
  unfold of_int, binary_normalize, binary_round.
  rewrite Z.add_0_r, fexp_eq by lia.
  set (d := Z.pos (digits2_pos p)) in *.
  assert (Hk : bra false (Z.pos p * 2 ^ (53 - d)) (d - 53) loc_Exact =
               S754_finite false (Z.to_pos (Z.pos p * 2 ^ (53 - d))) (d - 53)).
  { rewrite bra_keep by lia. simpl round_nearest_even.
    destruct (Z.eqb_spec (Z.pos p * 2 ^ (53 - d)) (2 ^ 53)) as [E|E]; [|done].
    exfalso. lia. }
  unfold shl_align. destruct (d - 53 - 0) as [|k|k] eqn:Ek; try lia.
  - assert (Ed : d = 53) by lia. rewrite Ed in *.
    change (2 ^ (53 - 53)) with 1 in *. rewrite Z.mul_1_r in *. exact Hk.
  - replace (53 - d) with (Z.pos k) in * by lia.
    rewrite iter_xO_pow. exact Hk.
Qed.

(** The quotient of two normal numbers, before rounding. *)
Lemma truediv_finite M1 e1 M2 e2 :
  2 ^ 52 ≤ Z.pos M1 < 2 ^ 53 → 2 ^ 52 ≤ Z.pos M2 < 2 ^ 53 →
  -52 ≤ e1 - e2 ≤ 52 →
  truediv (S754_finite false M1 e1) (S754_finite false M2 e2) =
  bra false (Z.pos M1 * 2 ^ 53 / Z.pos M2) (e1 - e2 - 53)
      (new_location (Z.pos M2) ((Z.pos M1 * 2 ^ 53) mod Z.pos M2)).
Proof.
  intros H1 H2 He. unfold truediv, SFdiv, SFdiv_core_binary.
  rewrite (Zdigits2_of_bounds (Z.pos M1) 53), (Zdigits2_of_bounds (Z.pos M2) 53)
    by (simpl; lia).
  replace (53 + e1 - (53 + e2)) with (e1 - e2) by lia.
  rewrite fexp_eq by lia.
  rewrite Z.min_l by lia.
  replace (e1 - e2 - (e1 - e2 - 53)) with 53 by lia.
  rewrite Z.shiftl_mul_pow2 by lia.
  unfold Z.div, Z.modulo.
  by destruct (Z.div_eucl (Z.pos M1 * 2 ^ 53) (Z.pos M2)).
Qed.

Lemma gt_finite M e :
  gt (S754_finite false M e) lit_0_80 =
  if e <? -53 then false else if e =? -53 then D80 <? Z.pos M else true.
Proof.
  unfold gt, SFltb, SFcompare, lit_0_80, D80.
  destruct (Z.compare_spec (-53) e), (Z.ltb_spec e (-53)), (Z.eqb_spec e (-53));
    try lia; try done.
Qed.

Lemma gt_bra_keep q e l :
  2 ^ 52 ≤ q < 2 ^ 53 → -1074 ≤ e ≤ 970 →
  gt (bra false q e l) lit_0_80 =
  if e <? -53 then false else if e =? -53 then D80 <? round_nearest_even q l else true.
Proof.
  intros Hq He. rewrite bra_keep by done.
  pose proof (round_nearest_even_bounds q l) as Hr.
  destruct (Z.eqb_spec (round_nearest_even q l) (2 ^ 53)) as [E|E]; rewrite gt_finite.
  - rewrite E.
    destruct (Z.ltb_spec (e + 1) (-53)), (Z.ltb_spec e (-53)),
      (Z.eqb_spec (e + 1) (-53)), (Z.eqb_spec e (-53)); try lia; done.
  - rewrite Z2Pos.id by lia. done.
Qed.

Lemma ltb_scale a b P : 0 < P → (a * P <? b * P) = (a <? b).
Proof.
  intros HP. destruct (Z.ltb_spec (a * P) (b * P)), (Z.ltb_spec a b); try done.
  - apply Z.mul_lt_mono_pos_r in H; [lia|done].
  - apply Z.mul_le_mono_pos_r in H; [lia|done].
Qed.

(** With [9 * n < 2^54], half an ulp above the double [0.80] separates the
    same fractions [m / n] as [4/5] does. *)
Lemma above_threshold m n :
  0 < n ≤ 2 ^ 50 → ((2 * D80 + 1) * n <? 2 ^ 54 * m) = (4 * n <? 5 * m).
Proof.
  intros Hn. unfold D80.
  destruct (Z.ltb_spec ((2 * 7205759403792794 + 1) * n) (2 ^ 54 * m)),
    (Z.ltb_spec (4 * n) (5 * m)); lia || done.
Qed.

(** On integers [0 <= m <= n <= 2^50], the rounded quotient [m / n] is above
    the double [0.80] exactly when the rational [m / n] is above [4/5]. *)
Lemma gt_truediv m n :
  0 ≤ m ≤ n → 0 < n ≤ 2 ^ 50 →
  gt (truediv (of_int m) (of_int n)) lit_0_80 = (4 * n <? 5 * m).
Proof.
  intros Hm Hn.
  assert (Hn53 : 0 < n < 2 ^ 53) by lia.
  pose proof (mant_bounds n Hn53) as HM2.
  destruct (Zdigits2_range n Hn53) as [Hd2 Hb2].
  rewrite (of_int_pos n) by done.
  destruct (Z.eq_dec m 0) as [->|Hm0].
  { change (gt (S754_zero false) lit_0_80 = (4 * n <? 5 * 0)).
    destruct (Z.ltb_spec (4 * n) (5 * 0)); [lia|done]. }
  assert (Hm53 : 0 < m < 2 ^ 53) by lia.
  pose proof (mant_bounds m Hm53) as HM1.
  destruct (Zdigits2_range m Hm53) as [Hd1 Hb1].
  rewrite (of_int_pos m) by done.
  rewrite truediv_finite by (rewrite ?Z2Pos.id by lia; lia).
  rewrite !Z2Pos.id by lia.
  unfold mant in *. set (d1 := Zdigits2 m) in *. set (d2 := Zdigits2 n) in *.
  assert (Hd : d1 ≤ d2).
  { destruct (Z_le_gt_dec d1 d2); [done|].
    assert (2 ^ d2 ≤ 2 ^ (d1 - 1)) by (apply Z.pow_le_mono_r; lia). lia. }
  assert (HP : 0 < 2 ^ (53 - d2)) by (apply Z.pow_pos_nonneg; lia).
  assert (HK : 2 ^ (53 - d1) = 2 ^ (d2 - d1) * 2 ^ (53 - d2))
    by (rewrite <- Z.pow_add_r by lia; f_equal; lia).
  rewrite HK in *. clear HK.
  set (P := 2 ^ (53 - d2)) in *. set (K := 2 ^ (d2 - d1)) in *.
  set (M1 := m * (K * P)) in *. set (M2 := n * P) in *.
  pose proof (Z.div_mod (M1 * 2 ^ 53) M2 ltac:(lia)) as Hdiv.
  pose proof (Z.mod_pos_bound (M1 * 2 ^ 53) M2 ltac:(lia)) as Hrem.
  set (q := M1 * 2 ^ 53 / M2) in *. set (r := (M1 * 2 ^ 53) mod M2) in *.
  replace (d1 - 53 - (d2 - 53) - 53) with (d1 - d2 - 53) by lia.
  destruct (Z_lt_le_dec M1 M2) as [Hlt|Hge].
  - (* quotient below one: 53 significant bits *)
    assert (Hq : 2 ^ 52 ≤ q < 2 ^ 53) by nia.
    rewrite gt_bra_keep by lia.
    destruct (Z.ltb_spec (d1 - d2 - 53) (-53)) as [Hlo|Hlo].
    + assert (2 ≤ K).
      { subst K. change 2 with (2 ^ 1). apply Z.pow_le_mono_r; lia. }
      assert (m * K < n) by (apply (Z.mul_lt_mono_pos_r P); [done|subst M1 M2; lia]).
      assert (m * 2 ≤ m * K) by (apply Z.mul_le_mono_nonneg_l; lia).
      destruct (Z.ltb_spec (4 * n) (5 * m)); [lia|done].
    + assert (Ed : d2 = d1) by lia.
      destruct (Z.eqb_spec (d1 - d2 - 53) (-53)); [|lia].
      rewrite (round_keep_above D80) by (done || lia).
      rewrite <- Hdiv.
      assert (EK : K = 1) by (subst K; rewrite Ed, Z.sub_diag; done).
      subst M1 M2. rewrite EK.
      replace ((2 * D80 + 1) * (n * P)) with ((2 * D80 + 1) * n * P) by ring.
      replace (2 * (m * (1 * P) * 2 ^ 53)) with (2 ^ 54 * m * P) by ring.
      rewrite ltb_scale by done. by apply above_threshold.
  - (* quotient in [1, 2): one more bit to shift out *)
    assert (Hq : 2 ^ 53 ≤ q < 2 ^ 54) by nia.
    rewrite bra_halve by lia.
    pose proof (div2_bounds q Hq) as Hq2.
    rewrite gt_bra_keep by lia.
    destruct (Z.ltb_spec (d1 - d2 - 53 + 1) (-53)) as [Hlo|Hlo].
    + assert (2 * 2 ^ d1 ≤ 2 ^ (d2 - 1)).
      { replace (2 * 2 ^ d1) with (2 ^ (d1 + 1)) by (rewrite Z.pow_add_r by lia; lia).
        apply Z.pow_le_mono_r; lia. }
      destruct (Z.ltb_spec (4 * n) (5 * m)); [lia|done].
    + destruct (Z.eqb_spec (d1 - d2 - 53 + 1) (-53)) as [Ee|Ee].
      * rewrite (round_halve_above D80) by (done || lia).
        rewrite <- Hdiv.
        assert (EK : K = 2) by (subst K; replace (d2 - d1) with 1 by lia; done).
        subst M1 M2. rewrite EK.
        replace ((2 * D80 + 1) * (n * P)) with ((2 * D80 + 1) * n * P) by ring.
        replace (m * (2 * P) * 2 ^ 53) with (2 ^ 54 * m * P) by ring.
        rewrite ltb_scale by done. by apply above_threshold.
      * assert (Ed : d2 = d1) by lia.
        assert (EK : K = 1) by (subst K; rewrite Ed, Z.sub_diag; done).
        assert (n ≤ m) by (apply (Z.mul_le_mono_pos_r _ _ P); [done|subst M1 M2; lia]).
        destruct (Z.ltb_spec (4 * n) (5 * m)); [done|lia].
Qed.

(** [n / n] is exactly [1.0]. *)
Lemma truediv_self n : 0 < n < 2 ^ 53 → truediv (of_int n) (of_int n) = one.
Proof.
  intros Hn. pose proof (mant_bounds n Hn) as HM.
  destruct (Zdigits2_range n Hn) as [Hd _].
  rewrite (of_int_pos n) by done.
  rewrite truediv_finite by (rewrite ?Z2Pos.id by lia; lia).
  rewrite !Z2Pos.id by lia.
  rewrite (Z.mul_comm (mant n)), Z.div_mul, Z.mod_mul by lia.
  rewrite new_location_spec by lia.
  replace (Zdigits2 n - 53 - (Zdigits2 n - 53) - 53) with (-53) by lia.
  by vm_compute.
Qed.

(** [0 / n] is exactly [0.0]. *)
Lemma truediv_zero n : 0 < n < 2 ^ 53 → truediv (of_int 0) (of_int n) = zero.
Proof. intros Hn. by rewrite (of_int_pos n). Qed.

End Binary64Facts.

(** ** Lists, traversals and counts *)

Local Open Scope nat_scope.

Section Lists.
Context {A B : Type}.

Lemma traverse_Ok (f : A → result B) l bs :
  traverse f l = Ok bs ↔ Forall2 (λ a b, f a = Ok b) l bs.
Proof.
  revert bs. induction l as [|a l IH]; intros bs; simpl.
  - split; [intros [= <-]; constructor | by inversion 1].
  - destruct (f a) as [b|e] eqn:Ea; simpl.
    + destruct (traverse f l) as [bs'|e] eqn:El; simpl.
      * split.
        -- intros [= <-]. constructor; [done|by apply IH].
        -- inversion 1 as [|? b' ? bs'' Hb Hbs]; subst.
           apply IH in Hbs. congruence.
      * split; [done|]. inversion 1 as [|? b' ? bs'' Hb Hbs]; subst.
        by apply IH in Hbs.
    + split; [done|]. inversion 1; congruence.
Qed.

Lemma traverse_fmap (f : A → result B) (g : A → B) l :
  Forall (λ a, f a = Ok (g a)) l → traverse f l = Ok (g <$> l).
Proof.
  intros H. apply traverse_Ok. induction H; constructor; done.
Qed.

Lemma filter_ext_elem (P Q : A → Prop) `{!∀ x, Decision (P x)} `{!∀ x, Decision (Q x)}
    (l : list A) :
  (∀ x, x ∈ l → P x ↔ Q x) → filter P l = filter Q l.
Proof.
  induction l as [|a l IH]; intros Hl; [done|].
  rewrite !filter_cons.
  assert (P a ↔ Q a) by (apply Hl; left).
  rewrite IH by (intros x Hx; apply Hl; by right).
  repeat case_decide; tauto || done.
Qed.
End Lists.

Lemma filter_seq_S (P : nat → Prop) `{!∀ x, Decision (P x)} n :
  filter P (seq 0 (S n)) = filter P (seq 0 n) ++ (if decide (P n) then [n] else []).
Proof. rewrite seq_S, filter_app. simpl. rewrite filter_cons, filter_nil. done. Qed.

Lemma all_eq_spec c bg : all_eq c bg = true ↔ c = bg.
Proof.
  destruct c as [[r g] b], bg as [[r' g'] b']. simpl.
  rewrite !andb_true_iff, !Z.eqb_eq. split; [intros [[-> ->] ->]; done|intros [= -> -> ->]; done].
Qed.

Lemma all_eq_rgb p bg : all_eq (rgb p) bg = true ↔ matches_bg bg p.
Proof.
  rewrite all_eq_spec. destruct bg as [[r g] b]. unfold rgb, matches_bg. simpl.
  split; [intros [= -> -> ->]; done|intros (-> & -> & ->); done].
Qed.

Lemma count_matches_snoc bg l c :
  count_matches bg (l ++ [c]) = count_matches bg l + (if all_eq c bg then 1 else 0).
Proof.
  unfold count_matches. rewrite fmap_app, sum_list_with_app.
  cbn [fmap list_fmap sum_list_with id]. lia.
Qed.

(** Counting along a line of pixels: the sum of numpy's booleans is the
    number of positions that hold a matching pixel. *)
Lemma count_matches_positions bg (ps : list RGBA) :
  count_matches bg (rgb <$> ps) =
  length (filter (λ i, holds_match bg (ps !! i)) (seq 0 (length ps))).
Proof.
  induction ps as [|p ps IH] using rev_ind; [done|].
  rewrite fmap_app, length_app, Nat.add_1_r, filter_seq_S.
  cbn [fmap list_fmap]. rewrite count_matches_snoc, IH, length_app. f_equal.
  - f_equal. apply filter_ext_elem. intros i Hi%elem_of_seq.
    rewrite lookup_app_l by lia. done.
  - rewrite list_lookup_middle by done.
    destruct (all_eq (rgb p) bg) eqn:E; case_decide as Hd; try done.
    + exfalso. apply Hd. by apply all_eq_rgb.
    + apply all_eq_rgb in Hd. congruence.
Qed.

Lemma traverse_is_Ok {A B} (f : A → result B) l :
  Forall (λ a, ∃ b, f a = Ok b) l → ∃ bs, traverse f l = Ok bs.
Proof.
  induction 1 as [|a l [b Hb] _ [bs Hbs]]; simpl; [by eexists|].
  rewrite Hb, Hbs. by eexists.
Qed.

Lemma count_matches_filter bg (c : list RGB) (P : nat → Prop) `{!∀ i, Decision (P i)} :
  (∀ i v, c !! i = Some v → P i ↔ all_eq v bg = true) →
  count_matches bg c = length (filter P (seq 0 (length c))).
Proof.
  induction c as [|v c IH] using rev_ind; intros Hc; [done|].
  rewrite length_app, Nat.add_1_r, filter_seq_S, count_matches_snoc, length_app.
  rewrite IH by (intros i w Hi; apply Hc; by apply lookup_app_l_Some).
  f_equal. specialize (Hc (length c) v (list_lookup_middle _ _ _ _ eq_refl)).
  destruct (all_eq v bg); case_decide; try done; exfalso; intuition congruence.
Qed.

Lemma getitem_Ok {A} (l : list A) i a : getitem l i = Ok a ↔ l !! i = Some a.
Proof. unfold getitem. destruct (l !! i); split; congruence. Qed.

Section Profiles.
Variable img : Image.
Hypothesis shaped : well_shaped img.

Lemma row_lookup y : y < height img → ∃ row, arr img !! y = Some row ∧ length row = width img.
Proof.
  destruct shaped as [Hh Hw]. intros Hy.
  destruct (lookup_lt_is_Some_2 (arr img) y) as [row Hrow]; [lia|].
  exists row. split; [done|]. by eapply (Forall_lookup_1 _ _ _ _ Hw).
Qed.

Lemma pixel_is_Some y x :
  y < height img → x < width img → is_Some (pixel img y x).
Proof.
  intros Hy Hx. destruct (row_lookup y Hy) as (row & Hrow & Hlen).
  unfold pixel. rewrite Hrow. simpl. apply lookup_lt_is_Some_2. lia.
Qed.

Lemma row_count bg y row :
  arr img !! y = Some row → length row = width img →
  count_matches bg (rgb <$> row) = matching_in_row img bg y.
Proof.
  intros Hrow Hlen. unfold matching_in_row. rewrite <- Hlen.
  rewrite <- (length_fmap rgb row). apply count_matches_filter.
  intros i v Hv. rewrite list_lookup_fmap in Hv.
  unfold matching, pixel. rewrite Hrow. simpl.
  destruct (row !! i) as [p|]; [|done]. injection Hv as <-.
  symmetry. apply all_eq_rgb.
Qed.

Lemma row_profile_ok bg :
  row_profile (arr img) bg (width img) (height img) =
  Ok ((λ y, whiteness (matching_in_row img bg y) (width img)) <$> seq 0 (height img)).
Proof.
  apply traverse_fmap, Forall_forall. intros y Hy%elem_of_seq.
  destruct (row_lookup y) as (row & Hrow & Hlen); [lia|].
  unfold row_of, getitem. rewrite Hrow. simpl. by rewrite (row_count bg y row).
Qed.

Lemma col_of_ok x :
  x < width img →
  ∃ c, col_of (arr img) x = Ok c ∧ length c = height img ∧
       ∀ y v, c !! y = Some v → ∃ p, pixel img y x = Some p ∧ v = rgb p.
Proof.
  intros Hx. destruct shaped as [Hh Hw].
  destruct (traverse_is_Ok (λ row : list RGBA, p ← getitem row x; Ok (rgb p)) (arr img))
    as [c Hc].
  { eapply Forall_impl; [exact Hw|]. intros row Hlen. simpl in Hlen.
    destruct (lookup_lt_is_Some_2 row x) as [p Hp]; [lia|].
    exists (rgb p). unfold getitem. by rewrite Hp. }
  exists c. split; [done|]. apply traverse_Ok in Hc.
  split; [by rewrite <- (Forall2_length _ _ _ Hc)|].
  intros y v Hv. destruct (Forall2_lookup_r _ _ _ _ _ Hc Hv) as (row & Hrow & Hf).
  unfold getitem in Hf. destruct (row !! x) as [p|] eqn:Hp; [|done].
  exists p. unfold pixel. rewrite Hrow. simpl. split; [done|]. simpl in Hf. congruence.
Qed.

Lemma col_profile_ok bg :
  col_profile (arr img) bg (width img) (height img) =
  Ok ((λ x, whiteness (matching_in_col img bg x) (height img)) <$> seq 0 (width img)).
Proof.
  apply traverse_fmap, Forall_forall. intros x Hx%elem_of_seq.
  destruct (col_of_ok x) as (c & Hc & Hlen & Hpix); [lia|].
  rewrite Hc. simpl. do 2 f_equal.
  unfold matching_in_col. rewrite <- Hlen. apply count_matches_filter.
  intros y v Hv. destruct (Hpix y v Hv) as (p & Hp & ->).
  unfold matching. rewrite Hp. symmetry. apply all_eq_rgb.
Qed.

Lemma sample_bg_ok :
  0 < width img → 0 < height img →
  ∃ p, pixel img 0 0 = Some p ∧ sample_bg (arr img) = Ok (rgb p).
Proof.
  intros Hw Hh. destruct (pixel_is_Some 0 0 Hh Hw) as [p Hp].
  exists p. split; [done|]. unfold pixel in Hp. unfold sample_bg, getitem.
  destruct (arr img !! 0) as [row|]; [|done]. simpl in *. by rewrite Hp.
Qed.

End Profiles.

(** ** The transition scans *)

Lemma enumerate_snoc {A} (l : list A) a :
  enumerate (l ++ [a]) = enumerate l ++ [(length l, a)].
Proof. unfold enumerate. rewrite imap_app. simpl. by rewrite Nat.add_0_r. Qed.

Lemma take_imap {A B} (f : nat → A → B) l k : take k (imap f l) = imap f (take k l).
Proof.
  revert f k. induction l as [|a l IH]; intros f [|k]; simpl; try done.
  by rewrite IH.
Qed.

Lemma row_scan_snoc ws w :
  row_scan (ws ++ [w]) = row_scan_step (row_scan ws) (length ws, w).
Proof. unfold row_scan. by rewrite enumerate_snoc, foldl_app. Qed.

Lemma col_scan_snoc ws w :
  col_scan (ws ++ [w]) = col_scan_step (col_scan ws) (length ws, w).
Proof. unfold col_scan. by rewrite enumerate_snoc, foldl_app. Qed.

Lemma row_scan_at_take ws k : row_scan_at ws k = row_scan (take k ws).
Proof. unfold row_scan_at, row_scan, enumerate. by rewrite take_imap. Qed.

Lemma state_before_app ws ws' y :
  y ≤ length ws → state_before (ws ++ ws') y = state_before ws y.
Proof. destruct y as [|y]; [done|]. intros Hy. simpl. by rewrite lookup_app_l by lia. Qed.

Lemma state_before_snoc ws w : state_before (ws ++ [w]) (S (length ws)) = is_bg w.
Proof. simpl. by rewrite list_lookup_middle. Qed.

Lemma enters_fg_app ws ws' y : y < length ws → enters_fg (ws ++ ws') y ↔ enters_fg ws y.
Proof.
  intros Hy. unfold enters_fg. by rewrite state_before_app, lookup_app_l by lia.
Qed.

Lemma leaves_fg_app ws ws' y : y < length ws → leaves_fg (ws ++ ws') y ↔ leaves_fg ws y.
Proof.
  intros Hy. unfold leaves_fg. by rewrite state_before_app, lookup_app_l by lia.
Qed.

Lemma row_scan_prev ws : prev_is_bg (row_scan ws) = state_before ws (length ws).
Proof.
  destruct ws as [|w ws _] using rev_ind; [done|].
  by rewrite row_scan_snoc, length_app, Nat.add_1_r, state_before_snoc.
Qed.

Lemma col_scan_prev ws : prev_bg (col_scan ws) = state_before ws (length ws).
Proof.
  destruct ws as [|w ws _] using rev_ind; [done|].
  by rewrite col_scan_snoc, length_app, Nat.add_1_r, state_before_snoc.
Qed.

Lemma enters_fg_last ws w :
  enters_fg (ws ++ [w]) (length ws) ↔ state_before ws (length ws) && negb (is_bg w) = true.
Proof.
  unfold enters_fg. rewrite state_before_app, list_lookup_middle by done. simpl.
  destruct (state_before ws (length ws)), (is_bg w); simpl; intuition congruence.
Qed.

Lemma leaves_fg_last ws w :
  leaves_fg (ws ++ [w]) (length ws) ↔ negb (state_before ws (length ws)) && is_bg w = true.
Proof.
  unfold leaves_fg. rewrite state_before_app, list_lookup_middle by done. simpl.
  destruct (state_before ws (length ws)), (is_bg w); simpl; intuition congruence.
Qed.

Lemma filter_snoc_if (P : nat → Prop) `{!∀ x, Decision (P x)} (b : bool) l n :
  (P n ↔ b = true) →
  (if b then l ++ [n] else l) = l ++ (if decide (P n) then [n] else []).
Proof. intros Hb. destruct b; case_decide; rewrite ?app_nil_r; intuition congruence. Qed.

Lemma row_scan_starts ws :
  card_row_starts (row_scan ws) = filter (enters_fg ws) (seq 0 (length ws)).
Proof.
  induction ws as [|w ws IH] using rev_ind; [done|].
  rewrite row_scan_snoc, length_app, Nat.add_1_r, filter_seq_S. simpl.
  rewrite row_scan_prev, IH.
  rewrite (filter_ext_elem (enters_fg (ws ++ [w])) (enters_fg ws))
    by (intros y Hy%elem_of_seq; apply enters_fg_app; lia).
  apply filter_snoc_if, enters_fg_last.
Qed.

Lemma row_scan_ends ws :
  card_row_ends (row_scan ws) = filter (leaves_fg ws) (seq 0 (length ws)).
Proof.
  induction ws as [|w ws IH] using rev_ind; [done|].
  rewrite row_scan_snoc, length_app, Nat.add_1_r, filter_seq_S. simpl.
  rewrite row_scan_prev, IH.
  rewrite (filter_ext_elem (leaves_fg (ws ++ [w])) (leaves_fg ws))
    by (intros y Hy%elem_of_seq; apply leaves_fg_app; lia).
  apply filter_snoc_if, leaves_fg_last.
Qed.

Lemma col_scan_starts ws :
  col_starts (col_scan ws) = filter (enters_fg ws) (seq 0 (length ws)).
Proof.
  induction ws as [|w ws IH] using rev_ind; [done|].
  rewrite col_scan_snoc, length_app, Nat.add_1_r, filter_seq_S. simpl.
  rewrite col_scan_prev, IH.
  rewrite (filter_ext_elem (enters_fg (ws ++ [w])) (enters_fg ws))
    by (intros y Hy%elem_of_seq; apply enters_fg_app; lia).
  apply filter_snoc_if, enters_fg_last.
Qed.


Lemma Forall_lt_S l n : Forall (λ y, y < n) l → Forall (λ y, y < S n) l.
Proof. intros H. eapply Forall_impl; [exact H|]. simpl. lia. Qed.

Lemma sorted_snoc l n :
  StronglySorted lt l → Forall (λ y, y < n) l → StronglySorted lt (l ++ [n]).
Proof.
  intros Hs Hl. apply StronglySorted_app_2; [|done|repeat constructor].
  intros x1 x2 H1 ->%list_elem_of_singleton.
  by apply (proj1 (Forall_forall _ _) Hl).
Qed.

Lemma row_inv_init : row_inv 0 row_scan_init.
Proof. split; simpl; try constructor; try done; intros ???; by rewrite lookup_nil. Qed.

Lemma row_inv_step n st w :
  row_inv n st → row_inv (S n) (row_scan_step st (n, w)).
Proof.
  intros [Hs He Hb [Ha1 Ha2] Hss Hes]. unfold row_scan_step.
  destruct (prev_is_bg st) eqn:Hprev, (is_bg w) eqn:Hw; simpl in *.
  - split; simpl; rewrite ?Hprev; auto using Forall_lt_S. by split.
  - (* background to foreground: a start at [n] *)
    split; simpl.
    + apply Forall_app; split; [by apply Forall_lt_S|]. apply Forall_singleton. lia.
    + by apply Forall_lt_S.
    + rewrite length_app. simpl. lia.
    + split.
      * intros i s e Hi Hi'. apply lookup_snoc_Some in Hi as [[_ Hi]|[Hi _]]; [by eapply Ha1|].
        apply lookup_lt_Some in Hi'. lia.
      * intros i e s Hi Hi'. apply lookup_snoc_Some in Hi' as [[_ Hi']|[_ <-]]; [by eapply Ha2|].
        by apply (proj1 (Forall_lookup _ _) He i).
    + by apply sorted_snoc.
    + done.
  - (* foreground to background: an end at [n] *)
    split; simpl.
    + by apply Forall_lt_S.
    + apply Forall_app; split; [by apply Forall_lt_S|]. apply Forall_singleton. lia.
    + rewrite length_app. simpl. lia.
    + split.
      * intros i s e Hi Hi'. apply lookup_snoc_Some in Hi' as [[_ Hi']|[_ <-]]; [by eapply Ha1|].
        by apply (proj1 (Forall_lookup _ _) Hs i).
      * intros i e s Hi Hi'. apply lookup_snoc_Some in Hi as [[_ Hi]|[Hi _]]; [by eapply Ha2|].
        apply lookup_lt_Some in Hi'. lia.
    + done.
    + by apply sorted_snoc.
  - split; simpl; rewrite ?Hprev; auto using Forall_lt_S. by split.
Qed.

Lemma row_scan_inv ws : row_inv (length ws) (row_scan ws).
Proof.
  induction ws as [|w ws IH] using rev_ind; [apply row_inv_init|].
  rewrite row_scan_snoc, length_app, Nat.add_1_r. by apply row_inv_step.
Qed.

(** ** The scanner on well-shaped images *)

Local Ltac shaped := split; [reflexivity | repeat constructor].
Local Ltac sized := split; reflexivity.

Lemma scan_image_ok img :
  well_shaped img → 0 < width img → 0 < height img →
  ∃ p, pixel img 0 0 = Some p ∧
       scan_image img =
       Ok {| bg_color := rgb p;
             row_whiteness := row_fractions img (rgb p);
             rows := row_scan (row_fractions img (rgb p));
             col_whiteness := col_fractions img (rgb p);
             cols := col_scan (col_fractions img (rgb p)) |}.
Proof.
  intros Hs Hw Hh. destruct (sample_bg_ok img Hs Hw Hh) as (p & Hp & Hbg).
  exists p. split; [done|]. unfold scan_image.
  rewrite Hbg. simpl. rewrite (row_profile_ok img Hs), (col_profile_ok img Hs). done.
Qed.

Lemma row_fractions_lookup img bg y :
  y < height img →
  row_fractions img bg !! y = Some (whiteness (matching_in_row img bg y) (width img)).
Proof.
  intros Hy. unfold row_fractions. by rewrite list_lookup_fmap, lookup_seq_lt.
Qed.

Lemma col_fractions_lookup img bg x :
  x < width img →
  col_fractions img bg !! x = Some (whiteness (matching_in_col img bg x) (height img)).
Proof.
  intros Hx. unfold col_fractions. by rewrite list_lookup_fmap, lookup_seq_lt.
Qed.

Lemma length_row_fractions img bg : length (row_fractions img bg) = height img.
Proof. unfold row_fractions. by rewrite length_fmap, length_seq. Qed.

Lemma length_col_fractions img bg : length (col_fractions img bg) = width img.
Proof. unfold col_fractions. by rewrite length_fmap, length_seq. Qed.

(** C1: on a loaded image of positive width and height the scan succeeds;
    [bg_color] is the red, green and blue of the pixel at (0,0); the row
    profile has one entry per row: the binary64 quotient ([SFdiv], at
    precision 53 and exponent bound 1024) of the number of pixels of the
    row whose three channels are exactly those of [bg_color], converted to
    binary64, by the width, converted likewise; the column profile has one
    entry per column, the same quotient of the count of the column by the
    height. *)
Theorem scan_profiles img :
  well_shaped img → 0 < width img → 0 < height img →
  ∃ p l,
    pixel img 0 0 = Some p ∧ scan_image img = Ok l ∧
    bg_color l = (red p, green p, blue p) ∧
    length (row_whiteness l) = height img ∧
    length (col_whiteness l) = width img ∧
    (∀ y, y < height img →
       row_whiteness l !! y =
       Some (SFdiv 53 1024
               (binary_normalize 53 1024
                  (Z.of_nat (matching_in_row img (bg_color l) y)) 0 false)
               (binary_normalize 53 1024 (Z.of_nat (width img)) 0 false))) ∧
    (∀ x, x < width img →
       col_whiteness l !! x =
       Some (SFdiv 53 1024
               (binary_normalize 53 1024
                  (Z.of_nat (matching_in_col img (bg_color l) x)) 0 false)
               (binary_normalize 53 1024 (Z.of_nat (height img)) 0 false))).
Proof.
  intros Hs Hw Hh. destruct (scan_image_ok img Hs Hw Hh) as (p & Hp & Hl).
  eexists p, _. split; [done|]. split; [exact Hl|]. simpl.
  split; [done|]. split; [apply length_row_fractions|]. split; [apply length_col_fractions|].
  split.
  - intros y Hy. by rewrite row_fractions_lookup.
  - intros x Hx. by rewrite col_fractions_lookup.
Qed.

(** On [sheet]: the sample is white; row 1 has two white pixels of three,
    column 1 two of five. *)
Lemma scan_profiles_witness :
  ∃ l, scan_image sheet = Ok l ∧
       bg_color l = (255, 255, 255)%Z ∧
       row_whiteness l !! 1 = Some (S754_finite false 6004799503160661 (-53)) ∧
       col_whiteness l !! 1 = Some (S754_finite false 7205759403792794 (-54)).
Proof.
  destruct (scan_profiles sheet) as (p & l & Hp & Hl & Hbg & _ & _ & Hr & Hc);
    [shaped | simpl; lia | simpl; lia |].
  injection Hp as <-.
  exists l. split; [exact Hl|]. split; [exact Hbg|].
  rewrite (Hr 1), (Hc 1), Hbg by (simpl; lia).
  split; reflexivity.
Defined.

Lemma scan_image_rows img l :
  scan_image img = Ok l →
  rows l = row_scan (row_whiteness l) ∧ cols l = col_scan (col_whiteness l) ∧
  length (row_whiteness l) = height img ∧ length (col_whiteness l) = width img.
Proof.
  unfold scan_image. intros H.
  destruct (sample_bg (arr img)) as [bg|]; [|done]. simpl in H.
  destruct (row_profile _ _ _ _) as [rw|] eqn:Hrw; [|done]. simpl in H.
  destruct (col_profile _ _ _ _) as [cw|] eqn:Hcw; [|done]. simpl in H.
  injection H as <-. simpl. repeat split.
  - apply traverse_Ok, Forall2_length in Hrw. by rewrite length_seq in Hrw.
  - apply traverse_Ok, Forall2_length in Hcw. by rewrite length_seq in Hcw.
Qed.

(** The classes of the whiteness of a line of [n] pixels, [m] of them
    matching: above 0.80 exactly when [m / n] is more than four fifths. *)
Lemma is_bg_whiteness m n :
  m ≤ n → 0 < n → (Z.of_nat n < 2 ^ 31)%Z →
  is_bg (whiteness m n) = (4 * Z.of_nat n <? 5 * Z.of_nat m)%Z.
Proof.
  intros Hm Hn Hsz. unfold is_bg, whiteness.
  apply Binary64Facts.gt_truediv; lia.
Qed.

Lemma matching_in_row_le img bg y : matching_in_row img bg y ≤ width img.
Proof.
  unfold matching_in_row. etrans; [apply length_filter|]. by rewrite length_seq.
Qed.

Lemma matching_in_col_le img bg x : matching_in_col img bg x ≤ height img.
Proof.
  unfold matching_in_col. etrans; [apply length_filter|]. by rewrite length_seq.
Qed.

(** C2: a position is background iff its whiteness is above 0.80, which
    for a line of pixels says that more than four fifths of them match;
    from the state background, [card_row_starts] is the list of the
    positions where the rows go from background to foreground,
    [card_row_ends] of those where they go back, and [col_starts] of those
    where the columns go into foreground. The column scan keeps no ends:
    [ColScan] has no such field. *)
Theorem scan_transitions img l :
  scan_image img = Ok l → well_shaped img → pil_size img →
  let bg := bg_color l in
  (* the classes: background iff more than four fifths of the line match *)
  (∀ y w, row_whiteness l !! y = Some w →
     is_bg w = Binary64.gt w Binary64.lit_0_80 ∧
     (is_bg w = true ↔ 4 * width img < 5 * matching_in_row img bg y)) ∧
  (∀ x w, col_whiteness l !! x = Some w →
     is_bg w = Binary64.gt w Binary64.lit_0_80 ∧
     (is_bg w = true ↔ 4 * height img < 5 * matching_in_col img bg x)) ∧
  (* the transitions *)
  card_row_starts (rows l) = filter (enters_fg (row_whiteness l)) (seq 0 (height img)) ∧
  card_row_ends (rows l) = filter (leaves_fg (row_whiteness l)) (seq 0 (height img)) ∧
  col_starts (cols l) = filter (enters_fg (col_whiteness l)) (seq 0 (width img)).
Proof.
  intros Hl Hs [Hw31 Hh31] bg.
  destruct (scan_image_rows img l Hl) as (Hrows & Hcols & Hlr & Hlc).
  assert (Hwh : 0 < width img ∧ 0 < height img).
  { unfold scan_image in Hl. destruct (sample_bg (arr img)) as [c|] eqn:Hbg; [|done].
    unfold sample_bg, getitem in Hbg.
    destruct (arr img !! 0) as [row|] eqn:Hrow; [|done]. simpl in Hbg.
    destruct (row !! 0) as [p|] eqn:Hp; [|done].
    destruct Hs as [Hh Hw]. apply lookup_lt_Some in Hp.
    pose proof (Forall_lookup_1 _ _ _ _ Hw Hrow) as Hlen. simpl in Hlen.
    apply lookup_lt_Some in Hrow. lia. }
  destruct Hwh as [Hw Hh].
  destruct (scan_image_ok img Hs Hw Hh) as (p & Hp & Hl').
  rewrite Hl in Hl'. injection Hl' as ->. simpl in *. subst bg.
  split; [|split].
  - intros y w Hy. split; [done|].
    assert (y < height img) by (apply lookup_lt_Some in Hy; by rewrite length_row_fractions in Hy).
    rewrite row_fractions_lookup in Hy by done. injection Hy as <-.
    rewrite is_bg_whiteness by (done || apply matching_in_row_le).
    rewrite Z.ltb_lt. lia.
  - intros x w Hx. split; [done|].
    assert (x < width img) by (apply lookup_lt_Some in Hx; by rewrite length_col_fractions in Hx).
    rewrite col_fractions_lookup in Hx by done. injection Hx as <-.
    rewrite is_bg_whiteness by (done || apply matching_in_col_le).
    rewrite Z.ltb_lt. lia.
  - rewrite row_scan_starts, row_scan_ends, col_scan_starts.
    by rewrite length_row_fractions, length_col_fractions.
Qed.

Lemma scan_transitions_witness :
  card_row_starts (rows sheet_locals) = [1; 4] ∧
  card_row_starts (rows sheet_locals) =
    filter (enters_fg (row_whiteness sheet_locals)) (seq 0 (height sheet)).
Proof.
  split; [reflexivity|].
  exact (proj1 (proj2 (proj2
    (scan_transitions sheet sheet_locals eq_refl ltac:(shaped) ltac:(sized))))).
Defined.

(** ** The report and the returned pair *)

Lemma unclosed_lines_Ok starts ends h :
  unclosed_lines starts ends h =
  Ok (if (length ends <? length starts)
      then from_option (λ s, [RowUnclosed (length starts) s h]) [] (last starts)
      else []).
Proof.
  unfold unclosed_lines. destruct (Nat.ltb_spec (length ends) (length starts)); [|done].
  unfold getitem. rewrite last_lookup.
  replace (pred (length starts)) with (length starts - 1) by lia.
  destruct (lookup_lt_is_Some_2 starts (length starts - 1)) as [s ->]; [lia|]. done.
Qed.

Lemma report_Ok name w h l : ∃ ls, report name w h l = Ok ls.
Proof. unfold report. rewrite unclosed_lines_Ok. simpl. by eexists. Qed.

Lemma find_card_rows_eq path name σ :
  ∃ ls,
    find_card_rows path name σ =
    match locals_at_return path σ with
    | Ok l => (print ls σ, Ok (length (card_row_starts (rows l)), length (col_starts (cols l))))
    | Raise e => (σ, Raise e)
    end ∧
    ∀ σ', files σ' !! path = files σ !! path →
      find_card_rows path name σ' =
      match locals_at_return path σ with
      | Ok l => (print ls σ', Ok (length (card_row_starts (rows l)), length (col_starts (cols l))))
      | Raise e => (σ', Raise e)
      end.
Proof.
  unfold find_card_rows, locals_at_return, image_open.
  destruct (files σ !! path) as [img|] eqn:Himg; simpl.
  - destruct (scan_image img) as [l|e] eqn:Hl.
    + destruct (report_Ok name (width img) (height img) l) as [ls Hls].
      exists ls. rewrite Hls. split; [done|]. intros σ' ->. by rewrite Hl, Hls.
    + exists []. split; [done|]. intros σ' ->. by rewrite Hl.
  - exists []. split; [done|]. by intros σ' ->.
Qed.

(** C3: on an image it can process, [find_card_rows] returns the pair
    [(len(card_row_starts), len(col_starts))]: the number of rows, and of
    columns, at which the fraction of pixels matching the corner goes from
    background to foreground. *)
Theorem find_card_rows_returns path name σ img :
  files σ !! path = Some img →
  well_shaped img → 0 < width img → 0 < height img →
  ∃ p l,
    pixel img 0 0 = Some p ∧ locals_at_return path σ = Ok l ∧
    (find_card_rows path name σ).2 =
      Ok (length (card_row_starts (rows l)), length (col_starts (cols l))) ∧
    (find_card_rows path name σ).2 =
      Ok (length (filter (enters_fg (row_fractions img (rgb p))) (seq 0 (height img))),
          length (filter (enters_fg (col_fractions img (rgb p))) (seq 0 (width img)))).
Proof.
  intros Hf Hs Hw Hh. destruct (scan_image_ok img Hs Hw Hh) as (p & Hp & Hl).
  destruct (find_card_rows_eq path name σ) as (ls & -> & _).
  unfold locals_at_return, image_open. rewrite Hf. simpl. rewrite Hl.
  eexists p, _. split; [done|]. split; [done|]. split; [done|]. simpl.
  by rewrite row_scan_starts, col_scan_starts, length_row_fractions, length_col_fractions.
Qed.

(** On [sheet]: two row runs, one column run. *)
Lemma find_card_rows_returns_witness :
  (find_card_rows "/tmp/action_cards.png" "action" sample_world).2 = Ok (2, 1).
Proof.
  destruct (find_card_rows_returns "/tmp/action_cards.png" "action" sample_world sheet)
    as (p & l & Hp & _ & _ & Hres);
    [reflexivity | shaped | simpl; lia | simpl; lia |].
  injection Hp as <-. rewrite Hres. reflexivity.
Defined.

(** C4: after any number [k] of iterations of the row scan, and so after
    the last, there are as many starts as ends or one more; one more
    exactly while the scan is in foreground. *)
Theorem row_scan_balance ws k :
  let st := row_scan_at ws k in
  length (card_row_ends st) ≤ length (card_row_starts st) ≤ length (card_row_ends st) + 1 ∧
  (length (card_row_starts st) = length (card_row_ends st) + 1 ↔ prev_is_bg st = false) ∧
  row_scan_at ws (length ws) = row_scan ws.
Proof.
  simpl. rewrite !row_scan_at_take, firstn_all.
  destruct (row_scan_inv (take k ws)) as [_ _ Hb _ _ _].
  destruct (prev_is_bg (row_scan (take k ws))); repeat split; intros; lia || done.
Qed.

(** C5: on an image of width or height zero the scan raises (the
    [IndexError] of [arr[0, 0, :3]]): no profile is computed, nothing is
    printed and nothing returned. *)
Theorem degenerate_image_fails path name σ img :
  files σ !! path = Some img → well_shaped img →
  width img = 0 ∨ height img = 0 →
  scan_image img = Raise IndexError ∧
  find_card_rows path name σ = (σ, Raise IndexError).
Proof.
  intros Hf [Hh Hw] Hz.
  assert (Hbg : sample_bg (arr img) = Raise IndexError).
  { unfold sample_bg, getitem. destruct (arr img !! 0) as [row|] eqn:Hrow; [|done]. simpl.
    destruct (row !! 0) as [p|] eqn:Hp; [|done].
    pose proof (Forall_lookup_1 _ _ _ _ Hw Hrow) as Hlen. simpl in Hlen.
    apply lookup_lt_Some in Hp, Hrow. lia. }
  assert (Hl : scan_image img = Raise IndexError) by (unfold scan_image; by rewrite Hbg).
  split; [done|]. unfold find_card_rows, image_open. by rewrite Hf, Hl.
Qed.

Lemma degenerate_image_fails_witness :
  scan_image no_columns = Raise IndexError ∧
  find_card_rows "/tmp/empty.png" "empty" other_world = (other_world, Raise IndexError).
Proof.
  apply (degenerate_image_fails _ _ other_world no_columns);
    [reflexivity | shaped | by left].
Defined.

Lemma state_before_last ws :
  state_before ws (length ws) = false ↔ is_bg <$> ws !! (length ws - 1) = Some false.
Proof.
  destruct ws as [|w ws _] using rev_ind; [done|].
  rewrite length_app, Nat.add_1_r, state_before_snoc.
  replace (S (length ws) - 1) with (length ws) by lia.
  rewrite list_lookup_middle by done. simpl. split; congruence.
Qed.

(** C10: after the row scan the starts and the ends are strictly
    increasing positions below the height, they alternate from a start on,
    so that a closed run has a positive height, and there are more starts
    than ends iff the last row is foreground: exactly then the report has
    its [unclosed] line, for the last start. *)
Theorem row_runs_interleave img l :
  scan_image img = Ok l →
  let starts := card_row_starts (rows l) in
  let ends := card_row_ends (rows l) in
  let last_row_is_fg := is_bg <$> row_whiteness l !! (height img - 1) = Some false in
  StronglySorted lt starts ∧ StronglySorted lt ends ∧
  Forall (λ y, y < height img) starts ∧ Forall (λ y, y < height img) ends ∧
  alternate starts ends ∧
  (length ends < length starts ↔ last_row_is_fg) ∧
  (unclosed_lines starts ends (height img) ≠ Ok [] ↔ last_row_is_fg) ∧
  (last_row_is_fg →
   ∃ s, last starts = Some s ∧
        unclosed_lines starts ends (height img) =
        Ok [RowUnclosed (length starts) s (height img)]).
Proof.
  intros Hl. destruct (scan_image_rows img l Hl) as (-> & _ & Hlen & _).
  pose proof (row_scan_inv (row_whiteness l)) as [Hs He Hb Ha Hss Hes].
  pose proof (row_scan_prev (row_whiteness l)) as Hprev.
  pose proof (state_before_last (row_whiteness l)) as Hlast.
  rewrite Hlen in *. rewrite <- Hprev in Hlast. simpl.
  assert (Hfg : length (card_row_ends (row_scan (row_whiteness l))) <
                length (card_row_starts (row_scan (row_whiteness l))) ↔
                is_bg <$> row_whiteness l !! (height img - 1) = Some false).
  { rewrite <- Hlast. destruct (prev_is_bg _); split; intros; lia || done. }
  repeat split; try done; try apply Hfg; try apply Ha.
  - intros Hu. apply Hfg. rewrite unclosed_lines_Ok in Hu.
    destruct (Nat.ltb_spec (length (card_row_ends (row_scan (row_whiteness l))))
                (length (card_row_starts (row_scan (row_whiteness l))))); done.
  - intros Hf%Hfg. rewrite unclosed_lines_Ok.
    destruct (Nat.ltb_spec (length (card_row_ends (row_scan (row_whiteness l))))
                (length (card_row_starts (row_scan (row_whiteness l))))); [|lia].
    rewrite last_lookup.
    destruct (lookup_lt_is_Some_2 (card_row_starts (row_scan (row_whiteness l)))
                (pred (length (card_row_starts (row_scan (row_whiteness l)))))) as [s ->]; [lia|].
    done.
  - intros Hf%Hfg. rewrite unclosed_lines_Ok.
    destruct (Nat.ltb_spec (length (card_row_ends (row_scan (row_whiteness l))))
                (length (card_row_starts (row_scan (row_whiteness l))))); [|lia].
    rewrite last_lookup.
    destruct (lookup_lt_is_Some_2 (card_row_starts (row_scan (row_whiteness l)))
                (pred (length (card_row_starts (row_scan (row_whiteness l)))))) as [s Hs']; [lia|].
    exists s. by rewrite Hs'.
Qed.

Lemma row_runs_interleave_witness :
  StronglySorted lt (card_row_starts (rows sheet_locals)) ∧
  StronglySorted lt (card_row_ends (rows sheet_locals)).
Proof.
  pose proof (row_runs_interleave sheet sheet_locals eq_refl) as H.
  split; [exact (proj1 H)|exact (proj1 (proj2 H))].
Defined.

(** ** Filters over positions *)

Section FilterSeq.
Context (P : nat → Prop) `{!∀ x, Decision (P x)}.

Lemma filter_seq_none n : (∀ x, x < n → ¬ P x) → filter P (seq 0 n) = [].
Proof.
  induction n as [|n IH]; intros Hn; [done|].
  rewrite filter_seq_S, IH by (intros; apply Hn; lia).
  rewrite decide_False by (apply Hn; lia). done.
Qed.

Lemma filter_seq_all n : (∀ x, x < n → P x) → filter P (seq 0 n) = seq 0 n.
Proof.
  induction n as [|n IH]; intros Hn; [done|].
  rewrite filter_seq_S, IH by (intros; apply Hn; lia).
  rewrite decide_True by (apply Hn; lia). by rewrite seq_S.
Qed.

Lemma filter_seq_only n k :
  k < n → (∀ x, x < n → P x ↔ x = k) → filter P (seq 0 n) = [k].
Proof.
  induction n as [|n IH]; intros Hk Hn; [lia|].
  rewrite filter_seq_S. destruct (decide (k = n)) as [->|Hne].
  - rewrite filter_seq_none by (intros x Hx HP; apply Hn in HP; lia).
    rewrite decide_True by (apply Hn; lia). done.
  - rewrite IH by (lia || intros; apply Hn; lia).
    rewrite decide_False; [done|]. intros HP. apply Hn in HP; lia.
Qed.
End FilterSeq.

Lemma fmap_seq_const {A} (f : nat → A) c n :
  (∀ y, y < n → f y = c) → f <$> seq 0 n = replicate n c.
Proof.
  induction n as [|n IH]; intros Hn; [done|].
  rewrite seq_S, fmap_app, IH, replicate_S_end by (intros; apply Hn; lia).
  simpl. by rewrite Hn by lia.
Qed.

(** ** Uniform images *)

Lemma whiteness_full n : 0 < n → (Z.of_nat n < 2 ^ 31)%Z → whiteness n n = Binary64.one.
Proof. intros Hn Hsz. apply Binary64Facts.truediv_self. lia. Qed.

Lemma whiteness_none n : 0 < n → (Z.of_nat n < 2 ^ 31)%Z → whiteness 0 n = Binary64.zero.
Proof. intros Hn Hsz. apply Binary64Facts.truediv_zero. lia. Qed.

Lemma scan_all_background ws :
  (∀ y w, ws !! y = Some w → is_bg w = true) →
  card_row_starts (row_scan ws) = [] ∧ card_row_ends (row_scan ws) = [] ∧
  col_starts (col_scan ws) = [].
Proof.
  intros Hbg. rewrite row_scan_starts, row_scan_ends, col_scan_starts.
  assert (Hb : ∀ y, state_before ws y = true).
  { intros [|y]; [done|]. simpl. destruct (ws !! y) as [w|] eqn:Hw; [|done]. by eapply Hbg. }
  assert (He : ∀ y, ¬ enters_fg ws y).
  { intros y [_ Hy]. destruct (ws !! y) as [w|] eqn:Hw; [|done].
    simpl in Hy. rewrite (Hbg y w Hw) in Hy. done. }
  rewrite !(filter_seq_none (enters_fg ws)) by (intros; apply He).
  rewrite filter_seq_none; [done|]. intros y _ [Hy _]. by rewrite Hb in Hy.
Qed.

(** C7: on an image whose pixels all have the colour of the corner, every
    row and column whiteness is 1.0, no start or end is recorded, and
    [find_card_rows] returns [(0, 0)]. *)
Theorem uniform_image_has_no_runs path name σ img p0 :
  files σ !! path = Some img →
  well_shaped img → pil_size img → 0 < width img → 0 < height img →
  pixel img 0 0 = Some p0 →
  (∀ y x p, pixel img y x = Some p → matches_bg (rgb p0) p) →
  ∃ l, scan_image img = Ok l ∧
       row_whiteness l = replicate (height img) Binary64.one ∧
       col_whiteness l = replicate (width img) Binary64.one ∧
       card_row_starts (rows l) = [] ∧ card_row_ends (rows l) = [] ∧
       col_starts (cols l) = [] ∧
       (find_card_rows path name σ).2 = Ok (0, 0).
Proof.
  intros Hf Hs [Hw31 Hh31] Hw Hh Hp0 Huni.
  destruct (scan_image_ok img Hs Hw Hh) as (p & Hp & Hl).
  rewrite Hp0 in Hp. injection Hp as <-.
  assert (Hall : ∀ y x, y < height img → x < width img → matching img (rgb p0) y x).
  { intros y x Hy Hx. destruct (pixel_is_Some img Hs y x Hy Hx) as [p Hp].
    unfold matching. rewrite Hp. by eapply Huni. }
  assert (Hrw : row_fractions img (rgb p0) = replicate (height img) Binary64.one).
  { apply fmap_seq_const. intros y Hy. unfold matching_in_row.
    rewrite filter_seq_all, length_seq by (intros; by apply Hall).
    by apply whiteness_full. }
  assert (Hcw : col_fractions img (rgb p0) = replicate (width img) Binary64.one).
  { apply fmap_seq_const. intros x Hx. unfold matching_in_col.
    rewrite filter_seq_all, length_seq by (intros; by apply Hall).
    by apply whiteness_full. }
  assert (Hone : ∀ n y w, replicate n Binary64.one !! y = Some w → is_bg w = true).
  { intros n y w [-> _]%lookup_replicate. done. }
  destruct (scan_all_background (row_fractions img (rgb p0))) as (Hrs & Hre & _).
  { rewrite Hrw. apply Hone. }
  destruct (scan_all_background (col_fractions img (rgb p0))) as (_ & _ & Hcs).
  { rewrite Hcw. apply Hone. }
  eexists. split; [exact Hl|]. simpl.
  repeat (split; [done|]).
  destruct (find_card_rows_eq path name σ) as (ls & -> & _).
  unfold locals_at_return, image_open. rewrite Hf. simpl. rewrite Hl. simpl.
  by rewrite Hrs, Hcs.
Qed.

Lemma uniform_image_has_no_runs_witness :
  ∃ l, scan_image plain = Ok l ∧
       row_whiteness l = replicate (height plain) Binary64.one ∧
       col_whiteness l = replicate (width plain) Binary64.one ∧
       card_row_starts (rows l) = [] ∧ card_row_ends (rows l) = [] ∧
       col_starts (cols l) = [] ∧
       (find_card_rows "/tmp/property_cards.png" "property" sample_world).2 = Ok (0, 0).
Proof.
  apply (uniform_image_has_no_runs _ _ sample_world plain white);
    [reflexivity | shaped | sized | simpl; lia | simpl; lia | reflexivity |].
  intros [|[|y]] [|[|x]] p Hp; try done; by injection Hp as <-.
Defined.

(** ** Images whose corner is the only match *)

(** A profile that is foreground everywhere after its first position. *)
Lemma scan_foreground_after_first ws (b : bool) :
  (∀ w, ws !! 0 = Some w → is_bg w = b) →
  (∀ y w, 0 < y → ws !! y = Some w → is_bg w = false) →
  (if b then 1 else 0) < length ws →
  card_row_starts (row_scan ws) = [if b then 1 else 0] ∧ card_row_ends (row_scan ws) = [].
Proof.
  intros H0 Hfg Hlen. rewrite row_scan_starts, row_scan_ends.
  assert (Hcls : ∀ y, y < length ws → is_bg <$> ws !! y = Some (if y is 0 then b else false)).
  { intros y Hy. destruct (lookup_lt_is_Some_2 ws y Hy) as [w Hw]. rewrite Hw. simpl.
    f_equal. destruct y; [by apply H0|]. apply (Hfg (S y)); [lia|done]. }
  assert (Hst : ∀ y, y < length ws →
            state_before ws y = match y with 0 => true | 1 => b | _ => false end).
  { intros [|y] Hy; [done|]. simpl.
    specialize (Hcls y ltac:(lia)). destruct (ws !! y) as [w|]; [|done].
    simpl in *. injection Hcls as ->. by destruct y. }
  split.
  - apply filter_seq_only; [done|]. intros y Hy. unfold enters_fg.
    rewrite Hst, Hcls by done. destruct b, y as [|[|y]]; split; intros; try done; try lia.
    all: destruct H; done.
  - apply filter_seq_none. intros y Hy. unfold leaves_fg.
    rewrite Hst, Hcls by done. destruct b, y as [|[|y]]; intros [??]; done.
Qed.

(** C6 as the specification states it fails on the image of one pixel:
    its only row is background, and no run is recorded. *)
Lemma lone_corner_counterexample :
  ¬ (∀ img p0,
       well_shaped img → pil_size img → 0 < width img → 0 < height img →
       pixel img 0 0 = Some p0 →
       (∀ y x p, pixel img y x = Some p → (y, x) ≠ (0, 0) → ¬ matches_bg (rgb p0) p) →
       ∃ l, scan_image img = Ok l ∧
            length (card_row_starts (rows l)) = 1 ∧ card_row_ends (rows l) = []).
Proof.
  intros Hclaim.
  destruct (Hclaim one_pixel white) as (l & Hl & Hlen & _).
  - shaped.
  - sized.
  - simpl. lia.
  - simpl. lia.
  - reflexivity.
  - intros [|[|y]] [|[|x]] p Hp Hne; done.
  - vm_compute in Hl. injection Hl as <-. simpl in Hlen. lia.
Qed.

(** C6, amended: on an image of more than one pixel in which only the
    corner pixel matches the corner sample, the whiteness is 0 on every row
    but the first, and the scan records one run, never closed: no end, and
    one start, at 0 when the image is two pixels wide or more, at 1 when it
    is one pixel wide (the first row is then background). *)
Theorem lone_corner_single_run img p0 :
  well_shaped img → pil_size img → 0 < width img → 0 < height img →
  1 < width img ∨ 1 < height img →
  pixel img 0 0 = Some p0 →
  (∀ y x p, pixel img y x = Some p → (y, x) ≠ (0, 0) → ¬ matches_bg (rgb p0) p) →
  ∃ l, scan_image img = Ok l ∧
       (∀ y, 0 < y < height img → row_whiteness l !! y = Some Binary64.zero) ∧
       row_whiteness l !! 0 = Some (whiteness 1 (width img)) ∧
       card_row_ends (rows l) = [] ∧
       card_row_starts (rows l) = [if decide (width img = 1) then 1 else 0] ∧
       unclosed_lines (card_row_starts (rows l)) (card_row_ends (rows l)) (height img) =
       Ok [RowUnclosed 1 (if decide (width img = 1) then 1 else 0) (height img)].
Proof.
  intros Hs [Hw31 Hh31] Hw Hh Hbig Hp0 Hlone.
  destruct (scan_image_ok img Hs Hw Hh) as (p & Hp & Hl).
  rewrite Hp0 in Hp. injection Hp as <-.
  assert (Hm : ∀ y x, y < height img → x < width img →
                 matching img (rgb p0) y x ↔ y = 0 ∧ x = 0).
  { intros y x Hy Hx. unfold matching. split.
    - destruct (pixel img y x) as [p|] eqn:Hp; [|done]. simpl. intros Hmatch.
      destruct (decide ((y, x) = (0, 0))) as [[= -> ->]|Hne]; [done|].
      by destruct (Hlone y x p Hp Hne).
    - intros [-> ->]. rewrite Hp0. done. }
  assert (Hrow0 : matching_in_row img (rgb p0) 0 = 1).
  { unfold matching_in_row. rewrite (filter_seq_only _ _ 0); [done..|].
    intros x Hx. rewrite Hm by done. intuition. }
  assert (Hrow : ∀ y, 0 < y < height img → matching_in_row img (rgb p0) y = 0).
  { intros y Hy. unfold matching_in_row. rewrite filter_seq_none; [done|].
    intros x Hx. rewrite Hm by lia. lia. }
  set (ws := row_fractions img (rgb p0)) in *.
  assert (Hws0 : ws !! 0 = Some (whiteness 1 (width img))).
  { subst ws. by rewrite row_fractions_lookup, Hrow0. }
  assert (Hwsy : ∀ y, 0 < y < height img → ws !! y = Some Binary64.zero).
  { intros y Hy. subst ws. rewrite row_fractions_lookup, Hrow by (done || lia).
    by rewrite whiteness_none. }
  assert (Hb : is_bg (whiteness 1 (width img)) = bool_decide (width img = 1)).
  { rewrite is_bg_whiteness by (done || lia).
    destruct (Z.ltb_spec (4 * Z.of_nat (width img)) (5 * Z.of_nat 1)); case_bool_decide; lia || done. }
  destruct (scan_foreground_after_first ws (bool_decide (width img = 1))) as [Hst Hen].
  { intros w Hw0. rewrite Hws0 in Hw0. by injection Hw0 as <-. }
  { intros y w Hy Hw0. assert (y < height img).
    { apply lookup_lt_Some in Hw0. subst ws. by rewrite length_row_fractions in Hw0. }
    rewrite Hwsy in Hw0 by lia. by injection Hw0 as <-. }
  { subst ws. rewrite length_row_fractions. case_bool_decide; lia. }
  assert (Hk : (if bool_decide (width img = 1) then 1 else 0) =
               (if decide (width img = 1) then 1 else 0)).
  { by case_bool_decide; case_decide. }
  rewrite Hk in Hst.
  eexists. split; [exact Hl|]. simpl. fold ws.
  split; [done|]. split; [done|]. split; [done|]. split; [done|].
  by rewrite unclosed_lines_Ok, Hst, Hen.
Qed.

Lemma lone_corner_single_run_witness :
  ∃ l, scan_image corner_only = Ok l ∧
       (∀ y, 0 < y < height corner_only → row_whiteness l !! y = Some Binary64.zero) ∧
       row_whiteness l !! 0 = Some (whiteness 1 (width corner_only)) ∧
       card_row_ends (rows l) = [] ∧
       card_row_starts (rows l) = [0] ∧
       unclosed_lines (card_row_starts (rows l)) (card_row_ends (rows l))
         (height corner_only) = Ok [RowUnclosed 1 0 (height corner_only)].
Proof.
  apply (lone_corner_single_run corner_only white);
    [shaped | sized | simpl; lia | simpl; lia | left; simpl; lia | reflexivity |].
  intros [|[|y]] [|[|x]] p Hp Hne; try done; injection Hp as <-; by intros [? _].
Defined.

(** ** Runs against the world *)

Lemma printed_print σ ls : printed σ (print ls σ) = ls.
Proof. unfold printed, print. simpl. by rewrite drop_app_length. Qed.

Lemma printed_same σ : printed σ σ = [].
Proof. unfold printed. by rewrite drop_all. Qed.

Lemma locals_at_return_ext path σ σ' :
  files σ !! path = files σ' !! path →
  locals_at_return path σ = locals_at_return path σ'.
Proof. unfold locals_at_return, image_open. by intros ->. Qed.

(** A call reads the world only through the image at [path]: what it
    returns and what it prints are the same in every world with that image. *)
Lemma find_card_rows_ext path name σ σ' :
  files σ !! path = files σ' !! path →
  (find_card_rows path name σ).2 = (find_card_rows path name σ').2 ∧
  printed σ (find_card_rows path name σ).1 = printed σ' (find_card_rows path name σ').1.
Proof.
  intros Hf. destruct (find_card_rows_eq path name σ) as (ls & _ & H).
  rewrite (H σ eq_refl), (H σ' (eq_sym Hf)).
  destruct (locals_at_return path σ); simpl; by rewrite ?printed_print, ?printed_same.
Qed.

Lemma find_card_rows_files path name σ : files (find_card_rows path name σ).1 = files σ.
Proof.
  destruct (find_card_rows_eq path name σ) as (ls & -> & _).
  by destruct (locals_at_return path σ).
Qed.


(** C8: the scan variables, the returned pair and the report of a call
    are determined by the image at its path: they are the same in any two
    worlds that hold the same image there, whatever was printed before or
    lies in other files, and a second call after the first repeats them. *)
Theorem scan_is_deterministic path name σ σ' :
  files σ !! path = files σ' !! path →
  let run := find_card_rows path name in
  (* the same image gives the same scan, whatever else the world holds *)
  locals_at_return path σ = locals_at_return path σ' ∧
  (run σ).2 = (run σ').2 ∧
  printed σ (run σ).1 = printed σ' (run σ').1 ∧
  (* and a second run, after the first, repeats it *)
  files (run σ).1 = files σ ∧
  locals_at_return path (run σ).1 = locals_at_return path σ ∧
  (run (run σ).1).2 = (run σ).2 ∧
  printed (run σ).1 (run (run σ).1).1 = printed σ (run σ).1.
Proof.
  intros Hf run. subst run.
  pose proof (find_card_rows_files path name σ) as Hfiles.
  assert (Hf1 : files (find_card_rows path name σ).1 !! path = files σ !! path)
    by (by rewrite Hfiles).
  destruct (find_card_rows_ext path name σ σ' Hf) as [Hr Hp].
  destruct (find_card_rows_ext path name _ σ Hf1) as [Hr1 Hp1].
  repeat split; try done; by apply locals_at_return_ext.
Qed.

Lemma scan_is_deterministic_witness :
  (find_card_rows "/tmp/action_cards.png" "action" sample_world).2 =
  (find_card_rows "/tmp/action_cards.png" "action" other_world).2.
Proof.
  exact (proj1 (proj2
    (scan_is_deterministic "/tmp/action_cards.png" "action" sample_world other_world
       eq_refl))).
Defined.

(** ** The driver *)

Lemma driver_loop_spec names : NoDup names → ∀ totals σ σ' t,
  driver_loop names totals σ = (σ', Ok t) →
  files σ' = files σ ∧
  (∀ name, name ∈ names →
     ∃ r c, (find_card_rows (card_path name) name σ).2 = Ok (r, c) ∧
            t !! name = Some (r * c)) ∧
  (∀ name, name ∉ names → t !! name = totals !! name).
Proof.
  induction 1 as [|name names Hnotin Hnd IH]; intros totals σ σ' t Hrun; simpl in Hrun.
  - injection Hrun as <- <-. split; [done|]. split; [by intros ? ?%elem_of_nil|done].
  - pose proof (find_card_rows_files (card_path name) name σ) as Hfiles.
    destruct (find_card_rows (card_path name) name σ) as [σ1 [[r c]|e]] eqn:Hcall; [|done].
    simpl in Hfiles.
    apply IH in Hrun as (Hf' & Hin & Hout). simpl in Hf'.
    split; [congruence|]. split.
    + intros name' [->|Hin']%elem_of_cons.
      * exists r, c. rewrite Hcall. split; [done|].
        rewrite Hout by done. apply lookup_insert_eq.
      * destruct (Hin name' Hin') as (r' & c' & Hres & Ht).
        exists r', c'. split; [|done]. rewrite <- Hres.
        apply find_card_rows_ext. simpl. by rewrite Hfiles.
    + intros name' Hnot. apply not_elem_of_cons in Hnot as [Hne Hnot].
      rewrite Hout by done. by apply lookup_insert_ne.
Qed.



Lemma driver_loop_total names : ∀ totals σ,
  (∀ name, name ∈ names → ∃ rc, (find_card_rows (card_path name) name σ).2 = Ok rc) →
  ∃ σ' t, driver_loop names totals σ = (σ', Ok t).
Proof.
  induction names as [|name names IH]; intros totals σ Hok; simpl; [by eexists _, _|].
  pose proof (find_card_rows_files (card_path name) name σ) as Hfiles.
  destruct (Hok name) as [[r c] Hrc]; [left|].
  destruct (find_card_rows (card_path name) name σ) as [σ1 res]. simpl in *. subst res.
  apply IH. intros name' Hin. destruct (Hok name') as [rc Hrc]; [by right|].
  exists rc. rewrite <- Hrc. apply find_card_rows_ext. simpl. by rewrite Hfiles.
Qed.

Lemma NoDup_categories : NoDup categories.
Proof. apply (bool_decide_unpack _). by vm_compute. Qed.




(** ** The sample sheets, run *)

Example threshold_is_strict :
  is_bg (whiteness 4 5) = false ∧ is_bg (whiteness 81 100) = true ∧
  is_bg (whiteness 5 5) = true ∧ is_bg (whiteness 0 5) = false.
Proof. by vm_compute. Qed.

Example sheet_call :
  find_card_rows "/tmp/action_cards.png" "action" sample_world =
  (print [Header "ACTION"; ImageInfo 3 5 (255, 255, 255)%Z; CardRows 2;
          RowSpan 1 1 3 2; RowUnclosed 2 4 5; CardColumns 1 [0]] sample_world,
   Ok (2, 1)).
Proof. by vm_compute. Qed.

Example sample_totals :
  (driver sample_world).2 =
  Ok {[ "action" := 2; "money" := 0; "property" := 0; "wild" := 1 ]}.
Proof. by vm_compute. Qed.

Example missing_file_ends_the_run :
  driver other_world =
  (print [Header "ACTION"; ImageInfo 3 5 (255, 255, 255)%Z; CardRows 2;
          RowSpan 1 1 3 2; RowUnclosed 2 4 5; CardColumns 1 [0];
          EstimatedTotal "action" 2 1 2] other_world,
   Raise FileNotFoundError).
Proof. by vm_compute. Qed.

(** ** More of the scanner: runs, symmetries, report and failures *)


Lemma col_scan_as_row_scan ws :
  col_starts (col_scan ws) = card_row_starts (row_scan ws) ∧
  prev_bg (col_scan ws) = prev_is_bg (row_scan ws).
Proof.
  by rewrite col_scan_starts, row_scan_starts, col_scan_prev, row_scan_prev.
Qed.

Lemma row_starts_gap ws i a b :
  card_row_starts (row_scan ws) !! i = Some a →
  card_row_starts (row_scan ws) !! S i = Some b → a + 2 ≤ b.
Proof.
  intros Ha Hb. destruct (row_scan_inv ws) as [_ _ Hbal [Ha1 Ha2] _ _].
  destruct (lookup_lt_is_Some_2 (card_row_ends (row_scan ws)) i) as [e He].
  { apply lookup_lt_Some in Hb. destruct (prev_is_bg (row_scan ws)); lia. }
  pose proof (Ha1 i a e Ha He). pose proof (Ha2 i e b He Hb). lia.
Qed.

Lemma gap_lower_bound (l : list nat) :
  (∀ i a b, l !! i = Some a → l !! S i = Some b → a + 2 ≤ b) →
  ∀ i s, l !! i = Some s → 2 * i ≤ s.
Proof.
  intros Hgap i. induction i as [|i IH]; intros s Hs; [lia|].
  destruct (lookup_lt_is_Some_2 l i) as [a Ha]; [apply lookup_lt_Some in Hs; lia|].
  specialize (IH a Ha). specialize (Hgap i a s Ha Hs). lia.
Qed.

Lemma row_starts_count ws : 2 * length (card_row_starts (row_scan ws)) ≤ length ws + 1.
Proof.
  destruct (row_scan_inv ws) as [Hlt _ _ _ _ _].
  set (l := card_row_starts (row_scan ws)) in *.
  destruct (decide (length l = 0)) as [->|Hne]; [lia|].
  destruct (lookup_lt_is_Some_2 l (length l - 1)) as [s Hs]; [lia|].
  pose proof (gap_lower_bound l (row_starts_gap ws) _ _ Hs).
  pose proof (proj1 (Forall_lookup _ _) Hlt _ _ Hs). simpl in *. lia.
Qed.

Lemma row_scan_runs ws y :
  y < length ws →
  is_bg <$> ws !! y = Some false ↔
  in_run (card_row_starts (row_scan ws)) (card_row_ends (row_scan ws)) y.
Proof.
  revert y. induction ws as [|w ws IH] using rev_ind; intros y Hy; [simpl in Hy; lia|].
  rewrite length_app, Nat.add_1_r in Hy.
  pose proof (row_scan_inv ws) as [Hs He Hbal _ _ _].
  rewrite row_scan_snoc. unfold row_scan_step.
  set (st := row_scan ws) in *. set (n := length ws) in *.
  assert (Hends : ∀ i e, card_row_ends st !! i = Some e → e < n)
    by (intros i e; apply (proj1 (Forall_lookup _ _) He)).
  assert (Hstarts : ∀ i s, card_row_starts st !! i = Some s → s < n)
    by (intros i s; apply (proj1 (Forall_lookup _ _) Hs)).
  destruct (decide (y = n)) as [->|Hne].
  - (* the position just read *)
    rewrite list_lookup_middle by done. simpl.
    destruct (prev_is_bg st) eqn:Hprev, (is_bg w) eqn:Hw; simpl; split; try done.
    + intros (i & s & Hi & _ & Hlt).
      destruct (lookup_lt_is_Some_2 (card_row_ends st) i) as [e Hie];
        [apply lookup_lt_Some in Hi; lia|].
      specialize (Hlt e Hie). specialize (Hends i e Hie). lia.
    + intros _. exists (length (card_row_starts st)), n. split; [by apply list_lookup_middle|].
      split; [done|]. intros e Hie%lookup_lt_Some. lia.
    + intros (i & s & Hi & _ & Hlt).
      destruct (lookup_lt_is_Some_2 (card_row_ends st ++ [n]) i) as [e Hie].
      { apply lookup_lt_Some in Hi. rewrite length_app. simpl. lia. }
      specialize (Hlt e Hie).
      apply lookup_snoc_Some in Hie as [[_ Hie]|[_ <-]]; [|lia].
      specialize (Hends i e Hie). lia.
    + intros _. destruct (lookup_lt_is_Some_2 (card_row_starts st) (length (card_row_ends st)))
        as [s Hi]; [lia|].
      exists (length (card_row_ends st)), s. split; [done|].
      split; [specialize (Hstarts _ _ Hi); lia|].
      intros e Hie%lookup_lt_Some. lia.
  - (* an earlier position *)
    assert (Hyn : y < n) by lia.
    rewrite lookup_app_l by done. rewrite (IH y Hyn).
    destruct (prev_is_bg st) eqn:Hprev, (is_bg w) eqn:Hw; simpl; try done.
    + split.
      * intros (i & s & Hi & Hle & Hlt). exists i, s. split; [by apply lookup_app_l_Some|done].
      * intros (i & s & Hi & Hle & Hlt).
        apply lookup_snoc_Some in Hi as [[_ Hi]|[_ <-]]; [|lia]. by exists i, s.
    + split.
      * intros (i & s & Hi & Hle & Hlt). exists i, s. split; [done|]. split; [done|].
        intros e [[_ Hie]|[_ <-]]%lookup_snoc_Some; [by apply Hlt|done].
      * intros (i & s & Hi & Hle & Hlt). exists i, s. split; [done|]. split; [done|].
        intros e Hie. apply Hlt. by apply lookup_app_l_Some.
Qed.

Lemma in_run_nil ends y : ¬ in_run [] ends y.
Proof. intros (i & s & Hi & _). by rewrite lookup_nil in Hi. Qed.

(** X1: the detected row runs are exactly the foreground rows: a row is
    foreground iff it lies in some run, from its start on and before its
    end when it has one; and no run is detected iff every row is
    background. *)
Theorem runs_cover_foreground img l :
  scan_image img = Ok l →
  let starts := card_row_starts (rows l) in
  let ends := card_row_ends (rows l) in
  (∀ y, y < height img →
     is_bg <$> row_whiteness l !! y = Some false ↔ in_run starts ends y) ∧
  (starts = [] ↔ ∀ y, y < height img → is_bg <$> row_whiteness l !! y = Some true).
Proof.
  intros Hl. destruct (scan_image_rows img l Hl) as (-> & _ & Hlen & _). simpl.
  assert (Hruns : ∀ y, y < height img →
            is_bg <$> row_whiteness l !! y = Some false ↔
            in_run (card_row_starts (row_scan (row_whiteness l)))
                   (card_row_ends (row_scan (row_whiteness l))) y).
  { intros y Hy. apply row_scan_runs. by rewrite Hlen. }
  split; [done|]. split.
  - intros Hnil y Hy. specialize (Hruns y Hy). rewrite Hnil in Hruns.
    destruct (lookup_lt_is_Some_2 (row_whiteness l) y) as [w Hw]; [by rewrite Hlen|].
    rewrite Hw in *. simpl in *. destruct (is_bg w); [done|].
    exfalso. eapply in_run_nil. by apply Hruns.
  - intros Hbg. destruct (card_row_starts _) as [|s starts] eqn:E; [done|].
    pose proof (row_scan_inv (row_whiteness l)) as [Hs _ _ _ _ _].
    rewrite E, Hlen in Hs. apply Forall_cons in Hs as [Hs _].
    pose proof (row_scan_starts (row_whiteness l)) as Hf.
    assert (Hin : s ∈ filter (enters_fg (row_whiteness l)) (seq 0 (length (row_whiteness l))))
      by (rewrite <- Hf, E; left).
    apply list_elem_of_filter in Hin as [[_ Hfg] _].
    rewrite (Hbg s Hs) in Hfg. done.
Qed.

(** X2: the column starts are strictly increasing positions below the
    width; two successive starts, of rows or of columns, are at least two
    apart, so the scan reports at most [(H + 1) / 2] rows and
    [(W + 1) / 2] columns. *)
Theorem run_starts_spaced img l :
  scan_image img = Ok l →
  let cs := col_starts (cols l) in
  let rs := card_row_starts (rows l) in
  StronglySorted lt cs ∧ Forall (λ x, x < width img) cs ∧
  (∀ i a b, cs !! i = Some a → cs !! S i = Some b → a + 2 ≤ b) ∧
  (∀ i a b, rs !! i = Some a → rs !! S i = Some b → a + 2 ≤ b) ∧
  2 * length rs ≤ height img + 1 ∧ 2 * length cs ≤ width img + 1.
Proof.
  intros Hl. destruct (scan_image_rows img l Hl) as (-> & -> & Hlr & Hlc). simpl.
  destruct (col_scan_as_row_scan (col_whiteness l)) as [-> _].
  pose proof (row_scan_inv (col_whiteness l)) as [Hlt _ _ _ Hsorted _].
  pose proof (row_starts_count (col_whiteness l)) as Hc.
  pose proof (row_starts_count (row_whiteness l)) as Hr.
  rewrite Hlc in *. rewrite Hlr in *.
  repeat split; try done; intros i a b; apply row_starts_gap.
Qed.

Lemma matches_bg_rgb bg p : matches_bg bg p ↔ rgb p = bg.
Proof. by rewrite <- all_eq_rgb, all_eq_spec. Qed.

(** Two images of one size whose pixels match the respective samples at
    the same positions have the same profiles. *)
Lemma fractions_ext img img' bg bg' :
  width img' = width img → height img' = height img →
  (∀ y x, y < height img → x < width img → matching img' bg' y x ↔ matching img bg y x) →
  row_fractions img' bg' = row_fractions img bg ∧
  col_fractions img' bg' = col_fractions img bg.
Proof.
  intros Hw Hh Hm. unfold row_fractions, col_fractions. rewrite Hw, Hh. split.
  - apply list_fmap_ext. intros i y Hy%lookup_seq. f_equal.
    unfold matching_in_row. rewrite Hw. f_equal. apply filter_ext_elem.
    intros x Hx%elem_of_seq. apply Hm; lia.
  - apply list_fmap_ext. intros i x Hx%lookup_seq. f_equal.
    unfold matching_in_col. rewrite Hh. f_equal. apply filter_ext_elem.
    intros y Hy%elem_of_seq. apply Hm; lia.
Qed.

Lemma scan_image_recoloured img img' (f : RGB → RGB) :
  well_shaped img → well_shaped img' →
  width img' = width img → height img' = height img →
  0 < width img → 0 < height img →
  (∀ a b, f a = f b → a = b) →
  (∀ y x p, pixel img y x = Some p →
     ∃ p', pixel img' y x = Some p' ∧ rgb p' = f (rgb p)) →
  ∃ l l', scan_image img = Ok l ∧ scan_image img' = Ok l' ∧
          bg_color l' = f (bg_color l) ∧
          row_whiteness l' = row_whiteness l ∧ rows l' = rows l ∧
          col_whiteness l' = col_whiteness l ∧ cols l' = cols l.
Proof.
  intros Hs Hs' Hw Hh Hpw Hph Hinj Hpix.
  destruct (scan_image_ok img Hs Hpw Hph) as (p0 & Hp0 & Hl).
  destruct (scan_image_ok img' Hs') as (p0' & Hp0' & Hl'); [lia..|].
  destruct (Hpix 0 0 p0 Hp0) as (q & Hq & Hrgb). rewrite Hp0' in Hq. injection Hq as ->.
  destruct (fractions_ext img img' (rgb p0) (rgb q) Hw Hh) as [Hr Hc].
  { intros y x Hy Hx. destruct (pixel_is_Some img Hs y x Hy Hx) as [p Hp].
    destruct (Hpix y x p Hp) as (p' & Hp' & Hrgb').
    unfold matching. rewrite Hp, Hp'. simpl.
    rewrite !matches_bg_rgb, Hrgb, Hrgb'. split; [apply Hinj|by intros ->]. }
  eexists _, _. split; [exact Hl|]. split; [exact Hl'|]. simpl.
  by rewrite Hr, Hc, Hrgb.
Qed.

(** X3: alpha is not looked at: two images of the same shape with the
    same red, green and blue everywhere have the same scan, exception
    included. *)
Theorem alpha_is_ignored img img' :
  well_shaped img → well_shaped img' →
  width img' = width img → height img' = height img →
  (∀ y x, rgb <$> pixel img' y x = rgb <$> pixel img y x) →
  scan_image img' = scan_image img.
Proof.
  intros Hs Hs' Hw Hh Hpix.
  destruct (decide (0 < width img ∧ 0 < height img)) as [[Hpw Hph]|Hz].
  - destruct (scan_image_recoloured img img' id) as (l & l' & Hl & Hl' & Hbg & ? & ? & ? & ?);
      try done.
    { intros y x p Hp. specialize (Hpix y x). rewrite Hp in Hpix.
      destruct (pixel img' y x) as [p'|]; [|done]. exists p'. split; [done|].
      simpl in Hpix. unfold id. congruence. }
    rewrite Hl, Hl'. f_equal. destruct l, l'. simpl in *. congruence.
  - assert (Hz' : ∀ i, well_shaped i → ¬ (0 < width i ∧ 0 < height i) →
                   scan_image i = Raise IndexError).
    { intros i [Hih Hiw] Hn. unfold scan_image, sample_bg, getitem.
      destruct (arr i !! 0) as [row|] eqn:Hrow; [|done]. simpl.
      destruct (row !! 0) as [p|] eqn:Hp; [|done].
      pose proof (Forall_lookup_1 _ _ _ _ Hiw Hrow) as Hlen. simpl in Hlen.
      apply lookup_lt_Some in Hp, Hrow. lia. }
    rewrite !Hz'; try done. by rewrite Hw, Hh.
Qed.

(** X4: only equality with the corner matters: recolouring an image by
    an injective map of colours changes [bg_color] by that map and nothing
    else: same profiles, same runs, same returned pair. *)
Theorem recolouring_keeps_the_runs path path' name σ img img' (f : RGB → RGB) :
  files σ !! path = Some img → files σ !! path' = Some img' →
  well_shaped img → well_shaped img' →
  width img' = width img → height img' = height img →
  0 < width img → 0 < height img →
  (∀ a b, f a = f b → a = b) →
  (∀ y x p, pixel img y x = Some p →
     ∃ p', pixel img' y x = Some p' ∧ rgb p' = f (rgb p)) →
  ∃ l l', scan_image img = Ok l ∧ scan_image img' = Ok l' ∧
          bg_color l' = f (bg_color l) ∧
          row_whiteness l' = row_whiteness l ∧ rows l' = rows l ∧
          col_whiteness l' = col_whiteness l ∧ cols l' = cols l ∧
          (find_card_rows path' name σ).2 = (find_card_rows path name σ).2.
Proof.
  intros Hf Hf' Hs Hs' Hw Hh Hpw Hph Hinj Hpix.
  destruct (scan_image_recoloured img img' f) as (l & l' & Hl & Hl' & Hbg & Hrw & Hr & Hcw & Hc);
    try done.
  exists l, l'. repeat (split; [done|]).
  destruct (find_card_rows_eq path name σ) as (ls & -> & _).
  destruct (find_card_rows_eq path' name σ) as (ls' & -> & _).
  unfold locals_at_return, image_open. rewrite Hf, Hf'. simpl. rewrite Hl, Hl'. simpl.
  by rewrite Hr, Hc.
Qed.

(** X5: rows and columns are scanned alike: on the transposed image the
    row profile and the row starts are the column profile and the column
    starts of the image, and back, and the returned pair is swapped. *)
Theorem transposed_image_swaps_the_scans path path' name σ img img' :
  files σ !! path = Some img → files σ !! path' = Some img' →
  well_shaped img → well_shaped img' →
  width img' = height img → height img' = width img →
  0 < width img → 0 < height img →
  (∀ y x, pixel img' x y = pixel img y x) →
  ∃ l l', scan_image img = Ok l ∧ scan_image img' = Ok l' ∧
          bg_color l' = bg_color l ∧
          row_whiteness l' = col_whiteness l ∧ col_whiteness l' = row_whiteness l ∧
          card_row_starts (rows l') = col_starts (cols l) ∧
          col_starts (cols l') = card_row_starts (rows l) ∧
          ∀ r c, (find_card_rows path name σ).2 = Ok (r, c) →
                 (find_card_rows path' name σ).2 = Ok (c, r).
Proof.
  intros Hf Hf' Hs Hs' Hw Hh Hpw Hph Hpix.
  destruct (scan_image_ok img Hs Hpw Hph) as (p0 & Hp0 & Hl).
  destruct (scan_image_ok img' Hs') as (p0' & Hp0' & Hl'); [lia..|].
  rewrite Hpix, Hp0 in Hp0'. injection Hp0' as <-.
  assert (Hm : ∀ y x, matching img' (rgb p0) x y ↔ matching img (rgb p0) y x).
  { intros y x. unfold matching. by rewrite Hpix. }
  assert (Hr : row_fractions img' (rgb p0) = col_fractions img (rgb p0)).
  { unfold row_fractions, col_fractions. rewrite Hw, Hh.
    apply list_fmap_ext. intros _ x _. f_equal.
    unfold matching_in_row, matching_in_col. rewrite Hw. f_equal.
    apply filter_ext_elem. intros y _. apply Hm. }
  assert (Hc : col_fractions img' (rgb p0) = row_fractions img (rgb p0)).
  { unfold row_fractions, col_fractions. rewrite Hw, Hh.
    apply list_fmap_ext. intros _ y _. f_equal.
    unfold matching_in_row, matching_in_col. rewrite Hh. f_equal.
    apply filter_ext_elem. intros x _. apply Hm. }
  eexists _, _. split; [exact Hl|]. split; [exact Hl'|]. simpl.
  rewrite Hr, Hc.
  destruct (col_scan_as_row_scan (row_fractions img (rgb p0))) as [Hcr _].
  destruct (col_scan_as_row_scan (col_fractions img (rgb p0))) as [Hcc _].
  repeat (split; [done|]).
  destruct (find_card_rows_eq path name σ) as (ls & -> & _).
  destruct (find_card_rows_eq path' name σ) as (ls' & -> & _).
  unfold locals_at_return, image_open. rewrite Hf, Hf'. simpl. rewrite Hl, Hl'. simpl.
  intros r c [= <- <-]. by rewrite Hr, Hc, Hcr, Hcc.
Qed.

(** ** The report, line by line *)

Lemma span_lines_lookup starts ends i :
  span_lines starts ends !! i =
  s ← starts !! i; e ← take (length starts) ends !! i;
  Some (RowSpan (i + 1) s e (Z.of_nat e - Z.of_nat s)).
Proof.
  unfold span_lines. rewrite list_lookup_imap. rewrite lookup_zip_with.
  destruct (starts !! i) as [s|]; [|done]. simpl.
  by destruct (take (length starts) ends !! i).
Qed.

Lemma length_span_lines starts ends :
  length ends ≤ length starts → length (span_lines starts ends) = length ends.
Proof.
  intros Hle. unfold span_lines. rewrite length_imap, length_zip_with, length_take. lia.
Qed.

(** X6: for an ASCII name, the report has one line per detected row run,
    in order and numbered from 1, between the three heading lines (the
    name in capitals, the image, the number of runs) and the line of the
    columns: a closed run with its end and its height [e - s], which is
    positive, the unclosed run with the height of the image. *)
Theorem report_lists_every_run path name σ img l :
  ascii_only name →
  files σ !! path = Some img → scan_image img = Ok l →
  let starts := card_row_starts (rows l) in
  let ends := card_row_ends (rows l) in
  let cs := col_starts (cols l) in
  ∃ row_lines,
    printed σ (find_card_rows path name σ).1 =
      [Header (upper name); ImageInfo (width img) (height img) (bg_color l);
       CardRows (length starts)]
      ++ row_lines ++ [CardColumns (length cs) (take 10 cs)] ∧
    length row_lines = length starts ∧
    ∀ i s, starts !! i = Some s →
      row_lines !! i =
        Some (match ends !! i with
              | Some e => RowSpan (i + 1) s e (Z.of_nat e - Z.of_nat s)
              | None => RowUnclosed (i + 1) s (height img)
              end) ∧
      ∀ e, ends !! i = Some e → s < e < height img.
Proof.
  intros _ Hf Hl. simpl.
  destruct (scan_image_rows img l Hl) as (Hrows & _ & Hlen & _).
  pose proof (row_scan_inv (row_whiteness l)) as [_ He Hbal [Ha _] _ _].
  rewrite <- Hrows, Hlen in *.
  set (starts := card_row_starts (rows l)) in *.
  set (ends := card_row_ends (rows l)) in *.
  assert (Hle : length ends ≤ length starts ≤ length ends + 1)
    by (destruct (prev_is_bg (rows l)); lia).
  exists (span_lines starts ends ++
          (if length ends <? length starts
           then from_option (λ s, [RowUnclosed (length starts) s (height img)]) [] (last starts)
           else [])).
  split; [|split].
  - unfold find_card_rows, image_open. rewrite Hf, Hl. unfold report.
    rewrite unclosed_lines_Ok. simpl. rewrite printed_print.
    fold starts ends. by rewrite <- !app_assoc.
  - rewrite length_app, length_span_lines by lia.
    destruct (Nat.ltb_spec (length ends) (length starts)) as [Hlt|Hge]; simpl; [|lia].
    rewrite last_lookup.
    destruct (lookup_lt_is_Some_2 starts (pred (length starts))) as [s ->]; [lia|].
    simpl. lia.
  - intros i s Hs. pose proof (lookup_lt_Some _ _ _ Hs) as Hi. split.
    + destruct (ends !! i) as [e|] eqn:Hie.
      * rewrite lookup_app_l by (rewrite length_span_lines by lia; by eapply lookup_lt_Some).
        rewrite span_lines_lookup, Hs. simpl.
        rewrite lookup_take_lt by done. by rewrite Hie.
      * apply lookup_ge_None in Hie.
        rewrite lookup_app_r by (rewrite length_span_lines by lia; lia).
        rewrite length_span_lines by lia.
        destruct (Nat.ltb_spec (length ends) (length starts)) as [Hlt|Hge]; [|lia].
        rewrite last_lookup.
        replace (pred (length starts)) with i by lia. rewrite Hs. simpl.
        replace (i - length ends) with 0 by lia. simpl.
        by replace (length starts) with (i + 1) by lia.
    + intros e Hie. split; [by eapply Ha|].
      by apply (proj1 (Forall_lookup _ _) He i).
Qed.

(** ** The driver when a call raises *)




(** X8: the driver returns its totals iff each of the four paths holds an
    image that the scan accepts. *)
Theorem driver_returns_iff_every_call_returns σ :
  (∃ σ' totals, driver σ = (σ', Ok totals)) ↔
  ∀ name, name ∈ categories →
    ∃ img, files σ !! card_path name = Some img ∧ ∃ l, scan_image img = Ok l.
Proof.
  assert (Hcall : ∀ name,
    (∃ rc, (find_card_rows (card_path name) name σ).2 = Ok rc) ↔
    ∃ img, files σ !! card_path name = Some img ∧ ∃ l, scan_image img = Ok l).
  { intros name. destruct (find_card_rows_eq (card_path name) name σ) as (ls & -> & _).
    unfold locals_at_return, image_open.
    destruct (files σ !! card_path name) as [img|]; simpl.
    - destruct (scan_image img) as [l|e] eqn:Hscan; simpl.
      + split; intros _; [exists img; split; [done|by exists l] | by eexists].
      + split; [by intros [? ?]|]. intros (? & [= <-] & l & Hl). congruence.
    - split; [by intros [? ?]|by intros (? & ? & _)]. }
  split.
  - intros (σ' & totals & Hrun) name Hname. apply Hcall.
    destruct (driver_loop_spec categories NoDup_categories ∅ σ σ' totals Hrun)
      as (_ & Hin & _).
    destruct (Hin name Hname) as (r & c & Hrc & _). eauto.
  - intros Hall. apply driver_loop_total. intros name Hname. apply Hcall. by apply Hall.
Qed.

(** ** Paths *)

Lemma list_ascii_of_string_app a b :
  list_ascii_of_string (a +:+ b) = list_ascii_of_string a ++ list_ascii_of_string b.
Proof. induction a as [|c a IH]; simpl; [done|]. by rewrite IH. Qed.

Lemma append_inj_r s a b : a +:+ s = b +:+ s → a = b.
Proof.
  intros H%(f_equal list_ascii_of_string).
  rewrite !list_ascii_of_string_app in H. apply app_inv_tail in H.
  apply (f_equal string_of_list_ascii) in H.
  by rewrite !string_of_list_ascii_of_string in H.
Qed.

(** X9: distinct names have distinct paths: no two categories read the
    same file. *)
Theorem card_path_inj a b : card_path a = card_path b → a = b.
Proof.
  unfold card_path. intros H%(inj (String.app "/tmp/")). by eapply append_inj_r.
Qed.

(** ** The range of a whiteness *)


Module Binary64Range.
Import Binary64 Binary64Facts.
Local Open Scope Z_scope.

Lemma unit_interval_finite M e :
  (e < -52) ∨ (e = -52 ∧ M = 4503599627370496%positive) →
  in_unit_interval (S754_finite false M e).
Proof.
  intros He. split; [done|]. unfold SFleb, SFcompare, one.
  destruct He as [He|[-> ->]]; [|done].
  destruct (Z.compare_spec e (-52)); done || lia.
Qed.

Lemma unit_interval_bra_keep q e l :
  (2 ^ 52 ≤ q < 2 ^ 53) → (-1074 ≤ e ≤ -53) →
  in_unit_interval (binary_round_aux prec emax false q e l).
Proof.
  intros Hq He. rewrite bra_keep by lia.
  destruct (Z.eqb_spec (round_nearest_even q l) (2 ^ 53)).
  - apply unit_interval_finite. destruct (decide (e = -53)) as [->|]; [by right|left; lia].
  - apply unit_interval_finite. left. lia.
Qed.

(** The rounded quotient of [0 <= m <= n] lies between 0.0 and 1.0. *)
Lemma unit_interval_truediv m n :
  (0 ≤ m ≤ n) → (0 < n < 2 ^ 53) →
  in_unit_interval (truediv (of_int m) (of_int n)).
Proof.
  intros Hm Hn.
  destruct (Z.eq_dec m 0) as [->|Hm0].
  { by rewrite truediv_zero. }
  destruct (Z.eq_dec m n) as [->|Hmn].
  { by rewrite truediv_self. }
  assert (Hm53 : (0 < m < 2 ^ 53)) by lia.
  pose proof (mant_bounds n Hn) as HM2.
  pose proof (mant_bounds m Hm53) as HM1.
  destruct (Zdigits2_range n Hn) as [Hd2 Hb2].
  destruct (Zdigits2_range m Hm53) as [Hd1 Hb1].
  rewrite (of_int_pos n), (of_int_pos m) by done.
  rewrite truediv_finite by (rewrite ?Z2Pos.id by lia; lia).
  rewrite !Z2Pos.id by lia.
  unfold mant in *.
  set (d1 := Zdigits2 m) in *. set (d2 := Zdigits2 n) in *.
  assert (Hd : (d1 ≤ d2)).
  { destruct (Z_le_gt_dec d1 d2); [done|].
    assert (2 ^ d2 ≤ 2 ^ (d1 - 1)) by (apply Z.pow_le_mono_r; lia). lia. }
  set (M1 := (m * 2 ^ (53 - d1))) in *. set (M2 := (n * 2 ^ (53 - d2))) in *.
  pose proof (Z.div_mod (M1 * 2 ^ 53) M2 ltac:(lia)) as Hdiv.
  pose proof (Z.mod_pos_bound (M1 * 2 ^ 53) M2 ltac:(lia)) as Hrem.
  set (q := (M1 * 2 ^ 53 / M2)) in *. set (r := ((M1 * 2 ^ 53) mod M2)) in *.
  replace (d1 - 53 - (d2 - 53) - 53) with (d1 - d2 - 53) by lia.
  destruct (Z_lt_le_dec M1 M2) as [Hlt|Hge].
  - assert (Hq : (2 ^ 52 ≤ q < 2 ^ 53)) by nia.
    apply unit_interval_bra_keep; lia.
  - assert (Hq : (2 ^ 53 ≤ q < 2 ^ 54)) by nia.
    assert (d1 < d2).
    { destruct (Z.eq_dec d1 d2) as [Ed|]; [|lia]. exfalso.
      subst M1 M2. rewrite Ed in Hge.
      assert (0 < 2 ^ (53 - d2)) by (apply Z.pow_pos_nonneg; lia).
      apply Z.mul_le_mono_pos_r in Hge; [lia|done]. }
    rewrite bra_halve by lia.
    apply unit_interval_bra_keep; [by apply div2_bounds|lia].
Qed.

End Binary64Range.

(** X10: every whiteness is a number between 0.0 and 1.0: never NaN,
    never infinite, never negative. *)
Theorem profiles_in_unit_interval img l :
  scan_image img = Ok l → well_shaped img → pil_size img →
  Forall in_unit_interval (row_whiteness l) ∧ Forall in_unit_interval (col_whiteness l).
Proof.
  intros Hl Hs [Hw31 Hh31].
  assert (Hwh : 0 < width img ∧ 0 < height img).
  { unfold scan_image in Hl. destruct (sample_bg (arr img)) as [c|] eqn:Hbg; [|done].
    unfold sample_bg, getitem in Hbg.
    destruct (arr img !! 0) as [row|] eqn:Hrow; [|done]. simpl in Hbg.
    destruct (row !! 0) as [p|] eqn:Hp; [|done].
    destruct Hs as [Hh Hw]. apply lookup_lt_Some in Hp.
    pose proof (Forall_lookup_1 _ _ _ _ Hw Hrow) as Hlen. simpl in Hlen.
    apply lookup_lt_Some in Hrow. lia. }
  destruct Hwh as [Hw Hh].
  destruct (scan_image_ok img Hs Hw Hh) as (p & Hp & Hl').
  rewrite Hl in Hl'. injection Hl' as ->. simpl.
  split; apply Forall_fmap, Forall_forall; intros k _; simpl; unfold whiteness;
    apply Binary64Range.unit_interval_truediv.
  - pose proof (matching_in_row_le img (rgb p) k). lia.
  - lia.
  - pose proof (matching_in_col_le img (rgb p) k). lia.
  - lia.
Qed.


Lemma runs_cover_foreground_witness :
  card_row_starts (rows sheet_locals) = [] ↔
  ∀ y, y < height sheet → is_bg <$> row_whiteness sheet_locals !! y = Some true.
Proof. exact (proj2 (runs_cover_foreground sheet sheet_locals eq_refl)). Defined.

Lemma run_starts_spaced_witness :
  2 * length (card_row_starts (rows sheet_locals)) ≤ height sheet + 1 ∧
  2 * length (col_starts (cols sheet_locals)) ≤ width sheet + 1.
Proof.
  pose proof (run_starts_spaced sheet sheet_locals eq_refl) as H.
  exact (proj2 (proj2 (proj2 (proj2 H)))).
Defined.

Lemma alpha_is_ignored_witness : scan_image plain_opaque = scan_image plain.
Proof.
  apply (alpha_is_ignored plain plain_opaque); [shaped | shaped | reflexivity | reflexivity |].
  intros [|[|y]] [|[|x]]; reflexivity.
Defined.

Lemma recolouring_keeps_the_runs_witness :
  (find_card_rows "/tmp/corner_n.png" "corner" pairs_world).2 =
  (find_card_rows "/tmp/corner.png" "corner" pairs_world).2.
Proof.
  destruct (recolouring_keeps_the_runs "/tmp/corner.png" "/tmp/corner_n.png" "corner"
              pairs_world corner_only corner_only_negative negative)
    as (l & l' & _ & _ & _ & _ & _ & _ & _ & H);
    [reflexivity | reflexivity | shaped | shaped | reflexivity | reflexivity
    | simpl; lia | simpl; lia | | | exact H].
  - intros [[r g] b] [[r' g'] b'] [= ? ? ?]. f_equal; [f_equal|]; lia.
  - intros [|[|y]] [|[|x]] p Hp; try done; injection Hp as <-; eexists; split; reflexivity.
Defined.

Lemma transposed_image_swaps_the_scans_witness :
  (find_card_rows "/tmp/sheet.png" "sheet" pairs_world).2 = Ok (2, 1) ∧
  (find_card_rows "/tmp/sheet_t.png" "sheet" pairs_world).2 = Ok (1, 2).
Proof.
  destruct (transposed_image_swaps_the_scans "/tmp/sheet.png" "/tmp/sheet_t.png" "sheet"
              pairs_world sheet sheet_transposed)
    as (l & l' & _ & _ & _ & _ & _ & _ & _ & H);
    [reflexivity | reflexivity | shaped | shaped | reflexivity | reflexivity
    | simpl; lia | simpl; lia | | ].
  - intros [|[|[|[|[|y]]]]] [|[|[|x]]]; reflexivity.
  - split; [reflexivity|]. apply H. reflexivity.
Defined.

Lemma report_lists_every_run_witness :
  ∃ row_lines,
    printed sample_world (find_card_rows "/tmp/action_cards.png" "action" sample_world).1 =
      [Header (upper "action"); ImageInfo (width sheet) (height sheet) (bg_color sheet_locals);
       CardRows (length (card_row_starts (rows sheet_locals)))]
      ++ row_lines
      ++ [CardColumns (length (col_starts (cols sheet_locals)))
            (take 10 (col_starts (cols sheet_locals)))] ∧
    length row_lines = length (card_row_starts (rows sheet_locals)).
Proof.
  destruct (report_lists_every_run "/tmp/action_cards.png" "action" sample_world
              sheet sheet_locals) as (row_lines & Hp & Hlen & _);
    [repeat constructor | reflexivity | reflexivity |].
  exists row_lines. split; [exact Hp|exact Hlen].
Defined.


Lemma card_path_inj_witness : "wild" = "wild".
Proof. exact (card_path_inj "wild" "wild" eq_refl). Defined.

Lemma profiles_in_unit_interval_witness :
  Forall in_unit_interval (row_whiteness sheet_locals) ∧
  Forall in_unit_interval (col_whiteness sheet_locals).
Proof.
  apply (profiles_in_unit_interval sheet sheet_locals); [reflexivity | shaped | sized].
Defined.
